(** * Glassmorphic music player: a shallow embedding of the React components
    and audio utilities, and the properties of the specification checked
    against them.

    Conventions of the embedding.
    - A React component is a record of its [useState] cells and refs; an
      event handler is a function from that record (and the props of the
      render that created the handler) to the record after the handler's
      [setX] calls have been applied.
    - A callback prop ([onTrackChange], [onFileUpload]) is modelled by the
      call the handler makes to it.
    - What a host object does with a call the code makes (the answer of
      [play()], the setter of [currentTime]) is an argument of the handler;
      a handler that can throw answers how it ended.
    - JavaScript numbers that carry seconds, pixels or volumes are rationals
      ([Q]); the only arithmetic done on them is one division and one
      multiplication, the rest is comparison.  Values that are not finite
      (NaN, Infinity) are a separate constructor of [number].
    - Array indices are integers ([Z]): [findIndex] answers [-1] and the
      code computes with that answer. *)

From Stdlib Require Import ZArith QArith Qround Lqa List Bool String Ascii Lia Permutation Sorted.
From Stdlib Require Import DecimalString DecimalZ.
Import ListNotations.

Local Open Scope Z_scope.

(** ** The fragment of JavaScript the components rely on *)

Module JS.

(** [Array.prototype.findIndex]: index of the first element satisfying
    [p], [-1] when there is none. *)
Fixpoint findIndex {A : Type} (p : A -> bool) (l : list A) : Z :=
  match l with
  | [] => -1
  | x :: rest =>
      if p x then 0
      else let i := findIndex p rest in
           if i <? 0 then -1 else i + 1
  end.

(** [arr[i]] for an integer [i]: [None] is [undefined], which is what a
    negative or too large index reads. *)
Definition get {A : Type} (l : list A) (i : Z) : option A :=
  if i <? 0 then None else nth_error l (Z.to_nat i).

(** [arr.length] *)
Definition length {A : Type} (l : list A) : Z := Z.of_nat (List.length l).

(** [arr.slice(n)] for a natural [n] *)
Definition slice {A : Type} (n : nat) (l : list A) : list A := skipn n l.

(** [arr.sort(compareFn)]: a stable sort; [compareFn a b <= 0] keeps [a]
    before [b]. *)
Fixpoint insertBy {A : Type} (cmp : A -> A -> Z) (x : A) (l : list A) : list A :=
  match l with
  | [] => [x]
  | y :: rest => if cmp x y <=? 0 then x :: l else y :: insertBy cmp x rest
  end.

Definition sort {A : Type} (cmp : A -> A -> Z) (l : list A) : list A :=
  fold_right (insertBy cmp) [] l.

(** Numbers that may fail to be finite ([audio.duration] is NaN before the
    metadata is known, a division by a zero width gives NaN or an
    Infinity). *)
Inductive number : Type :=
| Finite (q : Q)
| NonFinite.

(** [a / b] on finite operands *)
Definition div (a b : Q) : number :=
  if Qeq_bool b 0 then NonFinite else Finite (a / b).

(** [x * y]: a product with a non-finite factor is never finite *)
Definition mul (x y : number) : number :=
  match x, y with
  | Finite a, Finite b => Finite (a * b)
  | _, _ => NonFinite
  end.

(** ASCII part of [String.prototype.toLowerCase] *)
Definition lowerAscii (c : ascii) : ascii :=
  let n := nat_of_ascii c in
  if (65 <=? n)%nat && (n <=? 90)%nat then ascii_of_nat (n + 32) else c.

Fixpoint toLowerCase (s : string) : string :=
  match s with
  | EmptyString => EmptyString
  | String c rest => String (lowerAscii c) (toLowerCase rest)
  end.

(** [s.startsWith(p)] *)
Definition startsWith (s p : string) : bool := String.prefix p s.

(** [s.includes(sub)] *)
Fixpoint includes (s sub : string) : bool :=
  if String.prefix sub s then true
  else match s with
       | EmptyString => false
       | String _ rest => includes rest sub
       end.

(** [s.endsWith(suf)] *)
Definition endsWith (s suf : string) : bool :=
  let n := String.length s in
  let m := String.length suf in
  (m <=? n)%nat && String.eqb (String.substring (n - m) m s) suf.

(** [String(n)] for an integer [n] below 2^53 in magnitude: all its
    decimal digits.  (A larger number is printed by the shortest digits
    that read back to it, which this conversion does not follow.) *)
Definition ofInt (z : Z) : string := NilZero.string_of_int (Z.to_int z).

Fixpoint fill (c : ascii) (n : nat) : string :=
  match n with
  | O => EmptyString
  | S m => String c (fill c m)
  end.

(** [s.padStart(n, c)] for a one-character pad [c] *)
Definition padStart (n : nat) (c : ascii) (s : string) : string :=
  String.append (fill c (n - String.length s)) s.

(** [s.replace(pat, rep)] for a string pattern: only the first occurrence
    is replaced. *)
Fixpoint replace (pat rep s : string) : string :=
  if String.prefix pat s
  then String.append rep
         (String.substring (String.length pat) (String.length s - String.length pat) s)
  else match s with
       | EmptyString => EmptyString
       | String c rest => String c (replace pat rep rest)
       end.

(** A number as the time formatters see it: finite, NaN or an infinity. *)
Inductive double : Type :=
| Num (q : Q)
| NaN
| PosInfinity
| NegInfinity.

(** The result of [Math.floor]. *)
Inductive whole : Type :=
| Whole (z : Z)
| WNaN
| WPosInfinity
| WNegInfinity.

(** [Math.trunc] on a finite number *)
Definition Qtrunc (q : Q) : Z :=
  if Qle_bool 0 q then Qfloor q else Qceiling q.

(** [x / d] for a finite positive constant [d], as an exact quotient.
    JavaScript rounds the quotient to the nearest number; the whole part,
    which is all the callers use, is the same as long as [x] is below
    2^53. *)
Definition divBy (d : Q) (x : double) : double :=
  match x with
  | Num q => Num (q / d)
  | other => other
  end.

(** [x % d] for a finite positive constant [d]: the remainder has the sign
    of [x], and an infinity has none. *)
Definition remBy (d : Q) (x : double) : double :=
  match x with
  | Num q => Num (q - d * inject_Z (Qtrunc (q / d)))
  | _ => NaN
  end.

(** [Math.floor(x)] *)
Definition floor (x : double) : whole :=
  match x with
  | Num q => Whole (Qfloor q)
  | NaN => WNaN
  | PosInfinity => WPosInfinity
  | NegInfinity => WNegInfinity
  end.

(** [String(w)], also what a template literal and [toString()] give *)
Definition toString (w : whole) : string :=
  match w with
  | Whole z => ofInt z
  | WNaN => "NaN"
  | WPosInfinity => "Infinity"
  | WNegInfinity => "-Infinity"
  end.

End JS.

(** ** src/components/MusicPlayer.js *)

Module MusicPlayer.

(** A playlist entry, as the component reads it. *)
Record Track : Type := {
  id : Z;
  name : string;
  artist : option string;
  url : string
}.

(** The [<audio>] element behind [audioRef]: the properties the
    component writes. *)
Record AudioElement : Type := {
  el_currentTime : JS.number;
  el_volume : Q;
  el_paused : bool
}.

(** [getBoundingClientRect()] of the progress bar behind [progressRef]. *)
Record DOMRect : Type := {
  left : Q;
  width : Q
}.

(** The five [useState] cells and the two refs ([None] is a [null] ref). *)
Record State : Type := {
  isPlaying : bool;
  currentTime : JS.number;
  duration : JS.number;
  volume : Q;
  isMuted : bool;
  audioRef : option AudioElement;
  progressRef : option DOMRect
}.

(** The state of the first render. *)
Definition initial : State :=
  {| isPlaying := false; currentTime := JS.Finite 0; duration := JS.Finite 0;
     volume := 1; isMuted := false; audioRef := None; progressRef := None |}.

Definition setIsPlaying (b : bool) (s : State) : State :=
  {| isPlaying := b; currentTime := currentTime s; duration := duration s;
     volume := volume s; isMuted := isMuted s;
     audioRef := audioRef s; progressRef := progressRef s |}.

Definition setCurrentTime (t : JS.number) (s : State) : State :=
  {| isPlaying := isPlaying s; currentTime := t; duration := duration s;
     volume := volume s; isMuted := isMuted s;
     audioRef := audioRef s; progressRef := progressRef s |}.

Definition setDuration (d : JS.number) (s : State) : State :=
  {| isPlaying := isPlaying s; currentTime := currentTime s; duration := d;
     volume := volume s; isMuted := isMuted s;
     audioRef := audioRef s; progressRef := progressRef s |}.

Definition setVolume (v : Q) (s : State) : State :=
  {| isPlaying := isPlaying s; currentTime := currentTime s; duration := duration s;
     volume := v; isMuted := isMuted s;
     audioRef := audioRef s; progressRef := progressRef s |}.

Definition setIsMuted (b : bool) (s : State) : State :=
  {| isPlaying := isPlaying s; currentTime := currentTime s; duration := duration s;
     volume := volume s; isMuted := b;
     audioRef := audioRef s; progressRef := progressRef s |}.

(** A write to a property of [audioRef.current]. *)
Definition withAudio (f : AudioElement -> AudioElement) (s : State) : State :=
  {| isPlaying := isPlaying s; currentTime := currentTime s; duration := duration s;
     volume := volume s; isMuted := isMuted s;
     audioRef := option_map f (audioRef s); progressRef := progressRef s |}.


Definition write_volume (v : Q) (a : AudioElement) : AudioElement :=
  {| el_currentTime := el_currentTime a; el_volume := v; el_paused := el_paused a |}.

Definition write_paused (b : bool) (a : AudioElement) : AudioElement :=
  {| el_currentTime := el_currentTime a; el_volume := el_volume a; el_paused := b |}.

(** [isMuted ? 0 : volume], the expression of the volume effect. *)
Definition outputVolume (s : State) : Q :=
  if isMuted s then 0%Q else volume s.

(** The effect on [[volume, isMuted]]:
    [if (audioRef.current) audioRef.current.volume = isMuted ? 0 : volume]. *)
Definition volumeEffect (s : State) : State :=
  match audioRef s with
  | Some _ => withAudio (write_volume (outputVolume s)) s
  | None => s
  end.

(** What [audio.play()] does before it returns: it starts playback and
    [paused] becomes false, or the element refuses (it is not allowed to
    play, or its source is not supported) and stays as it is.  The promise
    that carries the answer is dropped by the caller. *)
Inductive PlayAnswer : Type :=
| Started
| Refused.

Definition play (answer : PlayAnswer) (a : AudioElement) : AudioElement :=
  match answer with
  | Started => write_paused false a
  | Refused => a
  end.

(** [audio.pause()] *)
Definition pause (a : AudioElement) : AudioElement := write_paused true a.

(** [togglePlayPause]; [hasTrack] is the truthiness of [currentTrack], and
    [answer] what the element does with [play()] if the handler calls it. *)
Definition togglePlayPause (hasTrack : bool) (answer : PlayAnswer) (s : State) : State :=
  match audioRef s with
  | None => s
  | Some _ =>
      if negb hasTrack then s
      else setIsPlaying (negb (isPlaying s))
             (withAudio (if isPlaying s then pause else play answer) s)
  end.

(** How a call of a handler ends: it returns, leaving a state, or a
    [TypeError] leaves it before any [setX] call, and the state stays the
    one before the call. *)
Inductive Completion : Type :=
| Returned (s : State)
| Threw.

(** [handleProgressClick(e)]; [clientX] is [e.clientX].  The assignment
    [audioRef.current.currentTime = newTime] goes to the setter of the
    element: it throws a [TypeError] for a value that is not finite, and
    for a finite one the element moves where the host decides ([seek], a
    browser keeps the position inside the media). *)
Definition handleProgressClick (seek : Q -> AudioElement -> AudioElement)
    (clientX : Q) (s : State) : Completion :=
  match audioRef s, progressRef s with
  | Some _, Some rect =>
      let clickX := (clientX - left rect)%Q in
      let newTime := JS.mul (JS.div clickX (width rect)) (duration s) in
      match newTime with
      | JS.Finite t => Returned (setCurrentTime newTime (withAudio (seek t) s))
      | JS.NonFinite => Threw
      end
  | _, _ => Returned s
  end.


(** [handleVolumeChange(e)]; [newVolume] is [parseFloat(e.target.value)]. *)
Definition handleVolumeChange (newVolume : Q) (s : State) : State :=
  setIsMuted (Qeq_bool newVolume 0) (setVolume newVolume s).


(** What a navigation handler does with the [onTrackChange] prop: it
    returns without calling it, or calls it once with [playlist[i]], which
    is a track or [undefined] ([None]). *)
Inductive Notify : Type :=
| NotCalled
| Called (arg : option Track).

(** [track.id === currentTrack?.id]; a missing [currentTrack] reads
    [undefined], which no track id equals. *)
Definition sameId (currentTrack : option Track) (track : Track) : bool :=
  match currentTrack with
  | Some c => id track =? id c
  | None => false
  end.

(** [handleNext]; a [null] or [undefined] playlist is [None]. *)
Definition handleNext (playlist : option (list Track)) (currentTrack : option Track) : Notify :=
  match playlist with
  | None => NotCalled
  | Some pl =>
      if JS.length pl =? 0 then NotCalled
      else
        let currentIndex := JS.findIndex (sameId currentTrack) pl in
        let nextIndex := Z.rem (currentIndex + 1) (JS.length pl) in
        Called (JS.get pl nextIndex)
  end.

(** [handlePrevious] *)
Definition handlePrevious (playlist : option (list Track)) (currentTrack : option Track) : Notify :=
  match playlist with
  | None => NotCalled
  | Some pl =>
      if JS.length pl =? 0 then NotCalled
      else
        let currentIndex := JS.findIndex (sameId currentTrack) pl in
        let prevIndex := if currentIndex =? 0 then JS.length pl - 1 else currentIndex - 1 in
        Called (JS.get pl prevIndex)
  end.

(** [disabled={!playlist || playlist.length <= 1}] on the previous and
    next buttons. *)
Definition navigationDisabled (playlist : option (list Track)) : bool :=
  match playlist with
  | None => true
  | Some pl => JS.length pl <=? 1
  end.

(** The listeners registered by the effect on [[currentTrack]]. *)
Definition updateTime (audioCurrentTime : JS.number) (s : State) : State :=
  setCurrentTime audioCurrentTime s.

Definition updateDuration (audioDuration : JS.number) (s : State) : State :=
  setDuration audioDuration s.


(** Modelled from the spec: the parent component that owns [currentTrack]
    and passes [onTrackChange] is not part of the sources.  Per the
    specification the track chosen by a navigation becomes the active
    track, so the parent stores the argument of the call; without a call
    the active track stays. *)
Definition onTrackChange (currentTrack : option Track) (n : Notify) : option Track :=
  match n with
  | NotCalled => currentTrack
  | Called arg => arg
  end.

(** [activeTrackId] of the specification: the id of the current track. *)
Definition activeTrackId (currentTrack : option Track) : option Z :=
  option_map id currentTrack.

(** The ids of a playlist snapshot, in order. *)
Definition ids (pl : list Track) : list Z := map id pl.

(** [clamp(v, lo, hi)] of the specification. *)
Definition clamp (v lo hi : Q) : Q :=
  if Qlt_le_dec v lo then lo else if Qlt_le_dec hi v then hi else v.

(** The tracks of the scenario of section 8. *)
Definition trackA : Track := {| id := 1; name := "A"; artist := None; url := "blob:a" |}.
Definition trackB : Track := {| id := 2; name := "B"; artist := None; url := "blob:b" |}.
Definition trackC : Track := {| id := 3; name := "C"; artist := None; url := "blob:c" |}.
Definition trackD : Track := {| id := 4; name := "D"; artist := None; url := "blob:d" |}.

(** A player with a track loaded: the audio element and the progress bar
    are mounted, the bar spans 100 pixels from x = 20, and the metadata
    announced 200 seconds. *)
Definition loaded : State :=
  {| isPlaying := true; currentTime := JS.Finite 0; duration := JS.Finite 200;
     volume := 1; isMuted := false;
     audioRef := Some {| el_currentTime := JS.Finite 0; el_volume := 1; el_paused := false |};
     progressRef := Some {| left := 20; width := 100 |} |}.

(** [formatTime(time)] *)
Definition formatTime (time : JS.double) : string :=
  match time with
  | JS.NaN => "0:00"
  | _ =>
      let minutes := JS.floor (JS.divBy 60 time) in
      let seconds := JS.floor (JS.remBy 60 time) in
      String.append (JS.toString minutes)
        (String.append ":" (JS.padStart 2 "0" (JS.toString seconds)))
  end.

(** The current track after [next()]: the parent has stored the track the
    handler chose. *)
Definition afterNext (pl : list Track) (currentTrack : option Track) : option Track :=
  onTrackChange currentTrack (handleNext (Some pl) currentTrack).

(** The current track after [previous()]. *)
Definition afterPrevious (pl : list Track) (currentTrack : option Track) : option Track :=
  onTrackChange currentTrack (handlePrevious (Some pl) currentTrack).

(** The flag [paused] of the audio element is the opposite of
    [isPlaying]. *)
Definition inSync (s : State) : Prop :=
  option_map el_paused (audioRef s) = Some (negb (isPlaying s)).

(** The props of one render ([onTrackChange] is modelled by the calls made
    to it). *)
Record Props : Type := {
  currentTrack : option Track;
  playlist : option (list Track)
}.

(** The effect on [[currentTrack]] (lines 18-38).  It returns early when
    [audioRef.current] is null, and the audio element is rendered exactly
    when [currentTrack] is truthy; otherwise it registers [handleEnded], a
    closure of the render the effect belongs to, whose [handleNext] reads
    the [playlist] and [currentTrack] of that render.  The answer is the
    props the registered listener sees, [None] without a listener. *)
Definition trackEffect (p : Props) : option Props :=
  match currentTrack p with
  | Some _ => Some p
  | None => None
  end.

(** A mounted player, as far as props go: those of the latest render,
    which the click handlers of the buttons see, and those the listener
    for [ended] on the audio element sees. *)
Record Player : Type := {
  props : Props;
  endedListener : option Props
}.

(** The first render. *)
Definition mount (p : Props) : Player :=
  {| props := p; endedListener := trackEffect p |}.

(** A later render.  The dependency [currentTrack] is compared with the
    one of the previous render by [Object.is]: when it is another value
    the cleanup removes the listeners and the effect runs again; when it
    is the same object the effect is skipped, whatever the playlist is. *)
Inductive Render : Type :=
| TrackChanged (p : Props)
| TrackKept (newPlaylist : option (list Track)).

Definition rerender (r : Render) (c : Player) : Player :=
  match r with
  | TrackChanged p => {| props := p; endedListener := trackEffect p |}
  | TrackKept newPlaylist =>
      {| props := {| currentTrack := currentTrack (props c); playlist := newPlaylist |};
         endedListener := endedListener c |}
  end.

Definition renders (rs : list Render) (c : Player) : Player :=
  fold_left (fun c r => rerender r c) rs c.

(** [handleEnded], the listener: [setIsPlaying(false); handleNext()], with
    the [handleNext] of the render that registered it. *)
Definition handleEnded (seen : Props) (s : State) : State * Notify :=
  (setIsPlaying false s, handleNext (playlist seen) (currentTrack seen)).

(** The audio element fires [ended]. *)
Definition onEnded (c : Player) (s : State) : State * Notify :=
  match endedListener c with
  | Some seen => handleEnded seen s
  | None => (s, NotCalled)
  end.

(** A click on the next button: the [handleNext] of the latest render. *)
Definition clickNext (c : Player) : Notify :=
  handleNext (playlist (props c)) (currentTrack (props c)).

End MusicPlayer.

(** ** src/components/FileUpload.js, first part: the upload control *)

Module FileUpload.

(** The properties of a [File] the validation reads; [size] is in bytes. *)
Record File : Type := {
  name : string;
  type : string;
  size : Z
}.

(** After [handleFileSelect]: the [uploadError] cell and the call made to
    the [onFileUpload] prop, if any. *)
Record Outcome : Type := {
  uploadError : string;
  onFileUpload : option File
}.

(** [handleFileSelect(file)]; a missing file ([undefined]) is [None].
    The handler first resets [uploadError] to the empty string. *)
Definition handleFileSelect (file : option File) : Outcome :=
  match file with
  | None => {| uploadError := EmptyString; onFileUpload := None |}
  | Some f =>
      if negb (JS.includes (type f) "audio/mpeg")
         && negb (JS.endsWith (JS.toLowerCase (name f)) ".mp3")
      then {| uploadError := "Please select an MP3 file only"; onFileUpload := None |}
      else if size f >? 50 * 1024 * 1024
      then {| uploadError := "File size must be less than 50MB"; onFileUpload := None |}
      else {| uploadError := EmptyString; onFileUpload := Some f |}
  end.

(** A recording one byte over the limit, and one well under it. *)
Definition oversized : File :=
  {| name := "Concert.MP3"; type := "audio/mpeg"; size := 50 * 1024 * 1024 + 1 |}.

Definition small : File :=
  {| name := "song.mp3"; type := "audio/mpeg"; size := 3 * 1024 * 1024 |}.

End FileUpload.

(** ** The audio utilities (second part of src/hooks/useLocalStorage.js) *)

Module AudioUtils.

Import FileUpload.

(** [validTypes.includes(t)] on the array literal of [isValidMP3File] *)
Definition validTypes : list string := ["audio/mp3"; "audio/mpeg"; "audio/mpeg3"]%string.

(** [isValidMP3File(file)] *)
Definition isValidMP3File (file : option File) : bool :=
  match file with
  | None => false
  | Some f =>
      if negb (existsb (String.eqb (type f)) validTypes) then false
      else
        let fileName := JS.toLowerCase (name f) in
        if negb (JS.endsWith fileName ".mp3") then false
        else
          let maxSize := 50 * 1024 * 1024 in
          if size f >? maxSize then false
          else true
  end.

(** What [loadFromLocalStorage] can make of a stored object: [ownKey] is a
    property named [key] of the stored object itself, [timestamp] its
    [timestamp] property.  [saveToLocalStorage] writes
    [{...audioData, timestamp: Date.now()}], and [audioData] as it is when
    it retries after a quota error, so both are optional. *)
Record AudioData : Type := {
  ownKey : option string;
  timestamp : option Z
}.

(** A stored string, by what [JSON.parse] makes of it: [Unloadable] when
    parsing throws or gives a falsy value ([null], [false], [0], an empty
    string), in which case [loadFromLocalStorage] answers a falsy value. *)
Inductive Item : Type :=
| Unloadable
| Loadable (data : AudioData).

(** [localStorage]: the entries in the order of [localStorage.key(i)]. *)
Definition Storage : Type := list (string * Item).

(** [localStorage.getItem(key)] *)
Definition getItem (key : string) (st : Storage) : option Item :=
  option_map snd (find (fun e => String.eqb (fst e) key) st).

(** [loadFromLocalStorage(key)]: [None] is [null] (or a falsy value). *)
Definition loadFromLocalStorage (key : string) (st : Storage) : option AudioData :=
  match getItem key st with
  | Some (Loadable data) => Some data
  | _ => None
  end.

(** [removeFromLocalStorage(key)] *)
Definition removeFromLocalStorage (key : string) (st : Storage) : Storage :=
  filter (fun e => negb (String.eqb (fst e) key)) st.

(** An element of [tracks]: [{ key, ...data }]. *)
Record SavedTrack : Type := {
  t_key : string;
  t_timestamp : option Z
}.

(** [{ key, ...data }]: the spread comes second, so a [key] property of
    the stored object replaces the storage key. *)
Definition spread (key : string) (data : AudioData) : SavedTrack :=
  {| t_key := match ownKey data with Some k => k | None => key end;
     t_timestamp := timestamp data |}.

(** [t.timestamp || 0] *)
Definition timestampOr0 (t : SavedTrack) : Z :=
  match t_timestamp t with
  | Some z => z
  | None => 0
  end.

(** [(a, b) => (b.timestamp || 0) - (a.timestamp || 0)] *)
Definition byTimestampDesc (a b : SavedTrack) : Z :=
  timestampOr0 b - timestampOr0 a.

(** The body of the [for] loop of [getAllSavedTracks] at one key. *)
Definition collect (st : Storage) (key : string) : list SavedTrack :=
  if JS.startsWith key "audio_" then
    match loadFromLocalStorage key st with
    | Some data => [spread key data]
    | None => []
    end
  else [].

(** [getAllSavedTracks()] *)
Definition getAllSavedTracks (st : Storage) : list SavedTrack :=
  let tracks := flat_map (collect st) (map fst st) in
  JS.sort byTimestampDesc tracks.

(** [clearOldAudioData()] *)
Definition clearOldAudioData (st : Storage) : Storage :=
  let tracks := getAllSavedTracks st in
  let tracksToRemove := JS.slice 5 tracks in
  fold_left (fun s track => removeFromLocalStorage (t_key track) s) tracksToRemove st.

(** The entries whose key starts with ['audio_']. *)
Definition isAudioEntry (e : string * Item) : bool := JS.startsWith (fst e) "audio_".

Definition audioEntries (st : Storage) : list (string * Item) := filter isAudioEntry st.

(** The timestamp an entry is ordered by. *)
Definition entryTimestamp (e : string * Item) : Z :=
  match snd e with
  | Loadable data => match timestamp data with Some z => z | None => 0 end
  | Unloadable => 0
  end.

(** The entry loads: [loadFromLocalStorage] answers a truthy value. *)
Definition isLoadable (e : string * Item) : bool :=
  match snd e with
  | Loadable _ => true
  | Unloadable => false
  end.

(** The entries [getAllSavedTracks] turns into tracks: those with an
    ['audio_'] key that load. *)
Definition isSaved (e : string * Item) : bool := isAudioEntry e && isLoadable e.

Definition savedEntries (st : Storage) : list (string * Item) := filter isSaved st.

(** The entry holds an object whose [key] property, if it has one, is the
    key it is stored under. *)
Definition plainAudio (e : string * Item) : Prop :=
  exists data, snd e = Loadable data
               /\ (ownKey data = None \/ ownKey data = Some (fst e)).

(** The track [getAllSavedTracks] builds from such an entry. *)
Definition entryTrack (e : string * Item) : SavedTrack :=
  {| t_key := fst e;
     t_timestamp := match snd e with
                    | Loadable data => timestamp data
                    | Unloadable => None
                    end |}.

(** The test by which [clearOldAudioData] spares an entry: its key is the
    key of none of the tracks to remove. *)
Definition spared (toRemove : list SavedTrack) (e : string * Item) : bool :=
  negb (existsb (fun t => String.eqb (fst e) (t_key t)) toRemove).

Definition sparedTrack (toRemove : list SavedTrack) (t : SavedTrack) : bool :=
  negb (existsb (fun r => String.eqb (t_key t) (t_key r)) toRemove).

(** [a] is listed no later than [b] by [byTimestampDesc]. *)
Definition newerFirst (a b : SavedTrack) : Prop := byTimestampDesc a b <= 0.

Definition saved (ts : Z) : Item := Loadable {| ownKey := None; timestamp := Some ts |}.

(** Seven saved recordings and the player settings. *)
Definition sevenRecordings : Storage :=
  [ ("audio_a_100", saved 100); ("playerSettings", Unloadable);
    ("audio_b_700", saved 700); ("audio_c_300", saved 300);
    ("audio_d_600", saved 600); ("audio_e_200", saved 200);
    ("audio_f_500", saved 500); ("audio_g_400", saved 400) ]%string.

(** Six saved recordings and one ['audio_'] entry that does not load. *)
Definition withBrokenEntry : Storage :=
  [ ("audio_a_100", saved 100); ("audio_broken", Unloadable);
    ("audio_b_700", saved 700); ("audio_c_300", saved 300);
    ("audio_d_600", saved 600); ("audio_e_200", saved 200);
    ("audio_f_500", saved 500) ]%string.

(** [formatDuration(seconds)]: a falsy number (zero, NaN) prints as
    ['00:00']. *)
Definition clock (seconds : JS.double) : string :=
  let mins := JS.floor (JS.divBy 60 seconds) in
  let secs := JS.floor (JS.remBy 60 seconds) in
  String.append (JS.padStart 2 "0" (JS.toString mins))
    (String.append ":" (JS.padStart 2 "0" (JS.toString secs))).

Definition formatDuration (seconds : JS.double) : string :=
  match seconds with
  | JS.NaN => "00:00"
  | JS.Num q => if Qeq_bool q 0 then "00:00" else clock seconds
  | _ => clock seconds
  end.

(** The storage after a successful [localStorage.setItem(key, value)]: the
    value of an existing key is replaced where it stands, a new key comes
    last. *)
Fixpoint assign (key : string) (item : Item) (st : Storage) : Storage :=
  match st with
  | [] => [(key, item)]
  | e :: rest =>
      if String.eqb (fst e) key then (fst e, item) :: rest
      else e :: assign key item rest
  end.

(** [localStorage.setItem(key, value)] under a quota: [quota st] tells
    whether the contents [st] fit; when the new contents do not, the call
    throws a [QuotaExceededError] ([None]) and nothing is stored. *)
Definition setItem (quota : Storage -> bool) (key : string) (item : Item)
    (st : Storage) : option Storage :=
  let st' := assign key item st in
  if quota st' then Some st' else None.

(** [{ ...audioData, timestamp: Date.now() }] *)
Definition stamped (now : Z) (audioData : AudioData) : AudioData :=
  {| ownKey := ownKey audioData; timestamp := Some now |}.

(** [saveToLocalStorage(key, audioData)]; [now] is [Date.now()]. *)
Definition saveToLocalStorage (quota : Storage -> bool) (now : Z)
    (key : string) (audioData : AudioData) (st : Storage) : Storage :=
  match setItem quota key (Loadable (stamped now audioData)) st with
  | Some saved => saved
  | None =>
      let cleared := clearOldAudioData st in
      match setItem quota key (Loadable audioData) cleared with
      | Some saved => saved
      | None => cleared
      end
  end.

(** A character outside [[^a-zA-Z0-9]]. *)
Definition isAlnum (c : ascii) : bool :=
  let n := nat_of_ascii c in
  ((48 <=? n) && (n <=? 57) || (65 <=? n) && (n <=? 90) || (97 <=? n) && (n <=? 122))%nat.

(** [fileName.replace(/[^a-zA-Z0-9]/g, '_')] *)
Fixpoint cleanName (fileName : string) : string :=
  match fileName with
  | EmptyString => EmptyString
  | String c rest => String (if isAlnum c then c else "_"%char) (cleanName rest)
  end.

(** [generateAudioKey(fileName)]; [timestamp] is [Date.now()]. *)
Definition generateAudioKey (timestamp : Z) (fileName : string) : string :=
  String.append "audio_"
    (String.append (cleanName fileName) (String.append "_" (JS.ofInt timestamp))).

(** Every character of the string satisfies [p]. *)
Fixpoint allChars (p : ascii -> bool) (s : string) : bool :=
  match s with
  | EmptyString => true
  | String c rest => p c && allChars p rest
  end.

(** The storages the module produces by saving: from nothing, by calls of
    [saveToLocalStorage] whose [audioData] has no [key] property other than
    the key it is saved under. *)
Inductive Saved (quota : Storage -> bool) : Storage -> Prop :=
| Saved_empty : Saved quota []
| Saved_save (st : Storage) (now : Z) (key : string) (audioData : AudioData) :
    Saved quota st ->
    ownKey audioData = None \/ ownKey audioData = Some key ->
    Saved quota (saveToLocalStorage quota now key audioData st).

End AudioUtils.

(** ** The animation-frame queue of the host

    [requestAnimationFrame(cb)] hands out a fresh non-zero id and queues the
    callback under it; [cancelAnimationFrame(id)] drops it.  Within one
    component every queued callback is the same function, so the queue is
    the list of pending ids. *)

Module Frames.

Record Queue : Type := {
  pending : list Z;
  nextId : Z
}.

Definition empty : Queue := {| pending := []; nextId := 1 |}.

Definition requestAnimationFrame (q : Queue) : Z * Queue :=
  (nextId q, {| pending := pending q ++ [nextId q]; nextId := nextId q + 1 |}).

Definition cancelAnimationFrame (i : Z) (q : Queue) : Queue :=
  {| pending := filter (fun j => negb (j =? i)) (pending q); nextId := nextId q |}.

(** [if (ref.current) cancelAnimationFrame(ref.current)]: [null] and [0]
    are falsy. *)
Definition cancelIfSet (ref : option Z) (q : Queue) : Queue :=
  match ref with
  | Some i => if i =? 0 then q else cancelAnimationFrame i q
  | None => q
  end.

(** The start of a frame: the pending callbacks are taken off the queue. *)
Definition take (q : Queue) : list Z * Queue :=
  (pending q, {| pending := []; nextId := nextId q |}).

End Frames.

(** ** src/components/FileUpload.js, second part: AudioVisualizer *)

Module AudioVisualizer.

(** A frequency snapshot: the bytes [getByteFrequencyData] writes. *)
Definition Snapshot : Type := list Z.

(** The component: its [isInitialized] cell, its refs (for the canvas and
    the analyser only whether they are set matters), the frame queue, the
    snapshots drawn so far, and whether the last run of the sampling
    effect returned its cleanup function. *)
Record State : Type := {
  isInitialized : bool;
  canvasRef : bool;
  analyserRef : bool;
  dataArrayRef : option Snapshot;
  animationIdRef : option Z;
  frames : Frames.Queue;
  drawn : list Snapshot;
  cleanupArmed : bool
}.

Definition withFrames (q : Frames.Queue) (s : State) : State :=
  {| isInitialized := isInitialized s; canvasRef := canvasRef s;
     analyserRef := analyserRef s; dataArrayRef := dataArrayRef s;
     animationIdRef := animationIdRef s; frames := q;
     drawn := drawn s; cleanupArmed := cleanupArmed s |}.

Definition withCleanup (b : bool) (s : State) : State :=
  {| isInitialized := isInitialized s; canvasRef := canvasRef s;
     analyserRef := analyserRef s; dataArrayRef := dataArrayRef s;
     animationIdRef := animationIdRef s; frames := frames s;
     drawn := drawn s; cleanupArmed := b |}.

(** The component after its first render, before the audio graph exists. *)
Definition mounted : State :=
  {| isInitialized := false; canvasRef := true; analyserRef := false;
     dataArrayRef := None; animationIdRef := None; frames := Frames.empty;
     drawn := []; cleanupArmed := false |}.

(** [initializeAudioContext], when nothing throws: the analyser and its
    byte array are created once ([fftSize = 256] gives 128 bins), then
    [setIsInitialized(true)]. *)
Definition initializeAudioContext (s : State) : State :=
  {| isInitialized := true; canvasRef := canvasRef s;
     analyserRef := true;
     dataArrayRef := if analyserRef s then dataArrayRef s else Some (repeat 0 128);
     animationIdRef := animationIdRef s; frames := frames s;
     drawn := drawn s; cleanupArmed := cleanupArmed s |}.

(** [draw]; [sample] is what the analyser holds when it is called. *)
Definition draw (sample : Snapshot) (s : State) : State :=
  match analyserRef s, dataArrayRef s with
  | true, Some _ =>
      let (i, q) := Frames.requestAnimationFrame (frames s) in
      {| isInitialized := isInitialized s; canvasRef := canvasRef s;
         analyserRef := analyserRef s; dataArrayRef := Some sample;
         animationIdRef := Some i; frames := q;
         drawn := drawn s ++ [sample]; cleanupArmed := cleanupArmed s |}
  | _, _ => s
  end.

(** The cleanup function of the sampling effect. *)
Definition cleanup (s : State) : State :=
  withFrames (Frames.cancelIfSet (animationIdRef s) (frames s)) s.

(** The body of the effect on [[isInitialized, isPlaying]]. *)
Definition samplingEffect (isPlaying : bool) (sample : Snapshot) (s : State) : State :=
  if negb (isInitialized s) || negb isPlaying || negb (canvasRef s) || negb (analyserRef s)
  then withCleanup false (cleanup s)
  else withCleanup true (draw sample s).

(** A render in which [isInitialized] or [isPlaying] changed: React runs
    the cleanup of the previous run, if it returned one, then the body. *)
Definition rerender (isPlaying : bool) (sample : Snapshot) (s : State) : State :=
  samplingEffect isPlaying sample (if cleanupArmed s then cleanup s else s).

(** A display-refresh tick: each callback pending at its start runs. *)
Definition tick (sample : Snapshot) (s : State) : State :=
  let (callbacks, q) := Frames.take (frames s) in
  fold_left (fun st _ => draw sample st) callbacks (withFrames q s).

(** The queue holds at most the request the ref remembers, and nothing
    once the effect has taken its early return. *)
Definition loopTracked (s : State) : Prop :=
  0 < Frames.nextId (frames s) /\
  (Frames.pending (frames s) = [] \/
   exists i, i <> 0 /\ i < Frames.nextId (frames s) /\
             Frames.pending (frames s) = [i] /\ animationIdRef s = Some i /\
             cleanupArmed s = true).

(** The unmount: the cleanup of the initialisation effect, which cancels
    the request the ref remembers, then the cleanup of the sampling effect,
    if its last run returned one. *)
Definition unmount (s : State) : State :=
  let s1 := cleanup s in
  if cleanupArmed s1 then cleanup s1 else s1.

(** What happens to a mounted visualizer: the audio graph gets initialised
    and the prop [isPlaying] changes, each followed by a render that
    re-runs the sampling effect; the display refreshes; the component
    unmounts.  [isPlaying] is the prop of that render, [sample] what the
    analyser then holds. *)
Inductive Event : Type :=
| Initialized (isPlaying : bool) (sample : Snapshot)
| PlayingChanged (isPlaying : bool) (sample : Snapshot)
| Frame (sample : Snapshot)
| Unmounted.

Definition step (e : Event) (s : State) : State :=
  match e with
  | Initialized isPlaying sample => rerender isPlaying sample (initializeAudioContext s)
  | PlayingChanged isPlaying sample => rerender isPlaying sample s
  | Frame sample => tick sample s
  | Unmounted => unmount s
  end.

Definition run (events : list Event) (s : State) : State :=
  fold_left (fun st e => step e st) events s.

End AudioVisualizer.

(** ** The page component [Home] (third part of src/hooks/useLocalStorage.js) *)

Module Home.

Definition Snapshot : Type := list Z.

(** An element of [songs]; [id] is [Date.now() + Math.random()]. *)
Record Song : Type := {
  id : Q;
  name : string;
  url : string
}.

(** The hidden [<audio>] element. *)
Record AudioElement : Type := {
  src : string;
  paused : bool
}.

(** [animationIdRef]: the object [useRef(null)] returns has the property
    [current]; [updateAudioData] assigns to a property named [useRef]. *)
Record AnimationIdRef : Type := {
  current : option Z;
  useRef : option Z
}.

(** State cells, refs, the frame queue, and the snapshots handed to
    [setAudioData] so far. *)
Record State : Type := {
  currentSong : option Song;
  isPlaying : bool;
  currentTime : Q;
  audioData : Snapshot;
  audioRef : option AudioElement;
  audioContextRef : bool;
  analyserRef : bool;
  dataArrayRef : option Snapshot;
  animationIdRef : AnimationIdRef;
  frames : Frames.Queue;
  produced : list Snapshot
}.

(** The page after its first render: the audio element is mounted and no
    audio graph exists yet. *)
Definition mounted : State :=
  {| currentSong := None; isPlaying := false; currentTime := 0; audioData := [];
     audioRef := Some {| src := EmptyString; paused := true |};
     audioContextRef := false; analyserRef := false; dataArrayRef := None;
     animationIdRef := {| current := None; useRef := None |};
     frames := Frames.empty; produced := [] |}.

(** [frequencyBinCount] for [fftSize = 256] *)
Definition frequencyBinCount : nat := 128.

(** [initializeAudioContext] *)
Definition initializeAudioContext (s : State) : State :=
  match audioContextRef s, audioRef s with
  | false, Some _ =>
      {| currentSong := currentSong s; isPlaying := isPlaying s;
         currentTime := currentTime s; audioData := audioData s;
         audioRef := audioRef s;
         audioContextRef := true; analyserRef := true;
         dataArrayRef := Some (repeat 0 frequencyBinCount);
         animationIdRef := animationIdRef s; frames := frames s;
         produced := produced s |}
  | _, _ => s
  end.

(** [updateAudioData]; [sample] is what the analyser holds when it is
    called. *)
Definition updateAudioData (sample : Snapshot) (s : State) : State :=
  match analyserRef s, dataArrayRef s with
  | true, Some _ =>
      let (i, q) := Frames.requestAnimationFrame (frames s) in
      {| currentSong := currentSong s; isPlaying := isPlaying s;
         currentTime := currentTime s; audioData := sample;
         audioRef := audioRef s;
         audioContextRef := audioContextRef s; analyserRef := analyserRef s;
         dataArrayRef := Some sample;
         animationIdRef := {| current := current (animationIdRef s); useRef := Some i |};
         frames := q; produced := produced s ++ [sample] |}
  | _, _ => s
  end.

(** [pauseSong] *)
Definition pauseSong (s : State) : State :=
  match audioRef s with
  | Some a =>
      {| currentSong := currentSong s; isPlaying := false;
         currentTime := currentTime s; audioData := audioData s;
         audioRef := Some {| src := src a; paused := true |};
         audioContextRef := audioContextRef s; analyserRef := analyserRef s;
         dataArrayRef := dataArrayRef s;
         animationIdRef := animationIdRef s;
         frames := Frames.cancelIfSet (current (animationIdRef s)) (frames s);
         produced := produced s |}
  | None => s
  end.

(** [currentSong?.id === song.id] *)
Definition sameSong (cur : option Song) (song : Song) : bool :=
  match cur with
  | Some c => Qeq_bool (id c) (id song)
  | None => false
  end.

(** [playSong(song)] *)
Definition playSong (song : Song) (sample : Snapshot) (s : State) : State :=
  if sameSong (currentSong s) song && isPlaying s then pauseSong s
  else
    match audioRef s with
    | Some _ =>
        let s1 :=
          {| currentSong := Some song; isPlaying := true;
             currentTime := currentTime s; audioData := audioData s;
             audioRef := Some {| src := url song; paused := false |};
             audioContextRef := audioContextRef s; analyserRef := analyserRef s;
             dataArrayRef := dataArrayRef s;
             animationIdRef := animationIdRef s; frames := frames s;
             produced := produced s |} in
        updateAudioData sample (initializeAudioContext s1)
    | None =>
        {| currentSong := Some song; isPlaying := isPlaying s;
           currentTime := currentTime s; audioData := audioData s;
           audioRef := audioRef s;
           audioContextRef := audioContextRef s; analyserRef := analyserRef s;
           dataArrayRef := dataArrayRef s;
           animationIdRef := animationIdRef s; frames := frames s;
           produced := produced s |}
    end.

(** [handleTimeUpdate]; [t] is [audioRef.current.currentTime]. *)
Definition handleTimeUpdate (t : Q) (s : State) : State :=
  match audioRef s with
  | Some _ =>
      {| currentSong := currentSong s; isPlaying := isPlaying s;
         currentTime := t; audioData := audioData s;
         audioRef := audioRef s;
         audioContextRef := audioContextRef s; analyserRef := analyserRef s;
         dataArrayRef := dataArrayRef s;
         animationIdRef := animationIdRef s; frames := frames s;
         produced := produced s |}
  | None => s
  end.

(** [onEnded={() => setIsPlaying(false)}] *)
Definition onEnded (s : State) : State :=
  {| currentSong := currentSong s; isPlaying := false;
     currentTime := currentTime s; audioData := audioData s;
     audioRef := audioRef s;
     audioContextRef := audioContextRef s; analyserRef := analyserRef s;
     dataArrayRef := dataArrayRef s;
     animationIdRef := animationIdRef s; frames := frames s;
     produced := produced s |}.

(** A display-refresh tick: each callback pending at its start runs
    [updateAudioData]. *)
Definition tick (sample : Snapshot) (s : State) : State :=
  let (callbacks, q) := Frames.take (frames s) in
  let s0 :=
    {| currentSong := currentSong s; isPlaying := isPlaying s;
       currentTime := currentTime s; audioData := audioData s;
       audioRef := audioRef s;
       audioContextRef := audioContextRef s; analyserRef := analyserRef s;
       dataArrayRef := dataArrayRef s;
       animationIdRef := animationIdRef s; frames := q;
       produced := produced s |} in
  fold_left (fun st _ => updateAudioData sample st) callbacks s0.

(** What can happen to the page. *)
Inductive Event : Type :=
| PlaySong (song : Song) (sample : Snapshot)
| PauseSong
| TimeUpdate (t : Q)
| Ended
| Tick (sample : Snapshot).

Definition step (e : Event) (s : State) : State :=
  match e with
  | PlaySong song sample => playSong song sample s
  | PauseSong => pauseSong s
  | TimeUpdate t => handleTimeUpdate t s
  | Ended => onEnded s
  | Tick sample => tick sample s
  end.

Definition run (events : list Event) (s : State) : State :=
  fold_left (fun st e => step e st) events s.

(** What every reachable state of the page satisfies: nothing ever
    assigns [animationIdRef.current], and a pending frame request means
    the analyser and its array exist. *)
Definition neverTracked (s : State) : Prop :=
  current (animationIdRef s) = None
  /\ (Frames.pending (frames s) <> [] ->
      analyserRef s = true /\ dataArrayRef s <> None).

(** The song and the analyser contents of the failing scenario. *)
Definition song1 : Song := {| id := 1700000000000 # 1; name := "demo"; url := "blob:demo" |}.
Definition sampleA : Snapshot := repeat 200 128.
Definition sampleB : Snapshot := repeat 90 128.

(** Whether the event is a [playSong] that starts playback instead of
    pausing. *)
Definition startsPlayback (e : Event) (s : State) : bool :=
  match e with
  | PlaySong song _ => negb (sameSong (currentSong s) song && isPlaying s)
  | _ => false
  end.

(** [handleFileUpload(event)]: [files] is [event.target.files], [stamp i]
    the value of [Date.now() + Math.random()] at the i-th MP3 file and
    [objectUrl] what [URL.createObjectURL] answers. *)
Definition handleFileUpload (stamp : nat -> Q) (objectUrl : FileUpload.File -> string)
    (files : list FileUpload.File) (songs : list Song) : list Song :=
  let mp3Files := filter (fun f => String.eqb (FileUpload.type f) "audio/mpeg") files in
  let newSong (entry : nat * FileUpload.File) : Song :=
    {| id := stamp (fst entry);
       name := JS.replace ".mp3" EmptyString (FileUpload.name (snd entry));
       url := objectUrl (snd entry) |} in
  songs ++ map newSong (combine (seq 0 (List.length mp3Files)) mp3Files).

(** The height, in percent, of the [i]-th bar of [Visualizer]:
    [Math.max(audioData[i] ? (audioData[i] / 255) * 100 : 0, 4)]. *)
Definition barHeight (data : Snapshot) (i : nat) : Q :=
  let height :=
    match nth_error data i with
    | Some v => if v =? 0 then 0%Q else ((inject_Z v / 255) * 100)%Q
    | None => 0%Q
    end in
  if Qle_bool 4 height then height else 4%Q.

(** [Array.from({ length: 32 }, ...)] *)
Definition bars (data : Snapshot) : list Q := map (barHeight data) (seq 0 32).

(** Once the audio context exists, so do the analyser and its array. *)
Definition graphBuilt (s : State) : Prop :=
  audioContextRef s = true -> analyserRef s = true /\ dataArrayRef s <> None.

End Home.

(** ** The hooks (first part of src/hooks/useLocalStorage.js) *)

Module LocalStorageHook.

(** [window.localStorage]: strings under string keys. *)
Definition Store : Type := list (string * string).

Definition getItem (key : string) (store : Store) : option string :=
  option_map snd (find (fun e => String.eqb (fst e) key) store).

Fixpoint setItem (key value : string) (store : Store) : Store :=
  match store with
  | [] => [(key, value)]
  | e :: rest =>
      if String.eqb (fst e) key then (fst e, value) :: rest
      else e :: setItem key value rest
  end.

Section UseLocalStorage.

(** The values kept under the key, with [JSON.stringify] and [JSON.parse]
    on them; [parse] answers [None] where [JSON.parse] throws. *)
Variable V : Type.
Variable stringify : V -> string.
Variable parse : string -> option V.

(** The initialiser of the state cell:
    [item ? JSON.parse(item) : initialValue], and [initialValue] when that
    throws. *)
Definition readStored (key : string) (initialValue : V) (store : Store) : V :=
  match getItem key store with
  | Some item =>
      if String.eqb item EmptyString then initialValue
      else match parse item with
           | Some v => v
           | None => initialValue
           end
  | None => initialValue
  end.

(** One use of the hook: [storedValue] is the state as the closures of the
    current render see it, [nextValue] the state after the
    [setStoredValue] calls made since that render. *)
Record Hook : Type := {
  storedValue : V;
  nextValue : V;
  store : Store
}.

Definition mount (key : string) (initialValue : V) (st : Store) : Hook :=
  {| storedValue := readStored key initialValue st;
     nextValue := readStored key initialValue st;
     store := st |}.

(** The argument of [setValue]: a value, or a function of the state. *)
Inductive Update : Type :=
| Value (v : V)
| Updater (f : V -> V).

(** [setValue(value)] *)
Definition setValue (key : string) (value : Update) (h : Hook) : Hook :=
  let valueToStore :=
    match value with
    | Updater f => f (storedValue h)
    | Value v => v
    end in
  {| storedValue := storedValue h;
     nextValue := valueToStore;
     store := setItem key (stringify valueToStore) (store h) |}.

(** The next render: its closures see the state set so far. *)
Definition render (h : Hook) : Hook :=
  {| storedValue := nextValue h; nextValue := nextValue h; store := store h |}.

(** [handleStorageChange(e)]; [eKey] and [newValue] are [e.key] and
    [e.newValue], [None] for [null]. *)
Definition handleStorageChange (key : string) (eKey newValue : option string)
    (h : Hook) : Hook :=
  match eKey, newValue with
  | Some k, Some text =>
      if String.eqb k key then
        match parse text with
        | Some v => {| storedValue := storedValue h; nextValue := v; store := store h |}
        | None => h
        end
      else h
  | _, _ => h
  end.

End UseLocalStorage.

Section UseMusicLibrary.

(** The properties of a track other than its id. *)
Variable P : Type.

(** An element of the library: [{ ...track, id: Date.now() }]. *)
Record Track : Type := {
  id : Z;
  properties : P
}.

Variable stringify : list Track -> string.



(** [clearLibrary()] *)
Definition clearLibrary (h : Hook (list Track)) : Hook (list Track) :=
  setValue (list Track) stringify "musicLibrary" (Value (list Track) []) h.

End UseMusicLibrary.



End LocalStorageHook.

(** ** The application shell (src/unnamed/part_001) *)

Module App.

(** [classList.toggle(token, force)] *)
Definition toggle (token : string) (force : bool) (classList : list string) : list string :=
  if force then
    if existsb (String.eqb token) classList then classList else classList ++ [token]
  else filter (fun c => negb (String.eqb token c)) classList.

(** The effect of [MyApp]: [stored] is [localStorage.getItem('theme')]. *)
Definition initTheme (stored : option string) (classList : list string) : list string :=
  let theme :=
    match stored with
    | Some t => if String.eqb t EmptyString then "dark"%string else t
    | None => "dark"%string
    end in
  toggle "dark" (String.eqb theme "dark") classList.

End App.

(** * Properties *)

(** ** Arrays *)

Section ArrayFacts.

Context {A : Type}.
Variable p : A -> bool.

Lemma findIndex_range (l : list A) :
  -1 <= JS.findIndex p l < JS.length l.
Proof.
  unfold JS.length.
  induction l as [|x rest IH]; simpl List.length; simpl JS.findIndex.
  - lia.
  - destruct (p x); [lia|].
    destruct (JS.findIndex p rest <? 0) eqn:E.
    + lia.
    + apply Z.ltb_ge in E. lia.
Qed.

Lemma get_cons (x : A) (l : list A) (i : Z) :
  JS.get (x :: l) i = if i =? 0 then Some x else JS.get l (i - 1).
Proof.
  unfold JS.get.
  destruct (i <? 0) eqn:Hneg.
  - apply Z.ltb_lt in Hneg.
    replace (i =? 0) with false by (symmetry; apply Z.eqb_neq; lia).
    replace (i - 1 <? 0) with true by (symmetry; apply Z.ltb_lt; lia).
    reflexivity.
  - apply Z.ltb_ge in Hneg.
    destruct (i =? 0) eqn:Hz.
    + apply Z.eqb_eq in Hz. subst i. reflexivity.
    + apply Z.eqb_neq in Hz.
      replace (i - 1 <? 0) with false by (symmetry; apply Z.ltb_ge; lia).
      replace (Z.to_nat i) with (S (Z.to_nat (i - 1))) by lia.
      reflexivity.
Qed.

Lemma get_In (l : list A) (i : Z) (x : A) :
  JS.get l i = Some x -> In x l.
Proof.
  unfold JS.get. destruct (i <? 0); [discriminate|].
  apply nth_error_In.
Qed.

Lemma get_in_range (l : list A) (i : Z) :
  0 <= i < JS.length l -> exists x, JS.get l i = Some x.
Proof.
  unfold JS.get, JS.length. intros [Hlo Hhi].
  replace (i <? 0) with false by (symmetry; apply Z.ltb_ge; lia).
  destruct (nth_error l (Z.to_nat i)) as [x|] eqn:E.
  - now exists x.
  - apply nth_error_None in E. lia.
Qed.

Lemma findIndex_absent (l : list A) :
  (forall x, In x l -> p x = false) -> JS.findIndex p l = -1.
Proof.
  induction l as [|x rest IH]; intros Hall; simpl.
  - reflexivity.
  - rewrite (Hall x (or_introl eq_refl)).
    rewrite IH by (intros y Hy; apply Hall; now right).
    reflexivity.
Qed.

Lemma findIndex_present (l : list A) (x : A) :
  In x l -> p x = true -> 0 <= JS.findIndex p l.
Proof.
  induction l as [|y rest IH]; intros Hin Hp; simpl.
  - destruct Hin.
  - destruct (p y) eqn:Hy; [lia|].
    destruct Hin as [->|Hin]; [congruence|].
    specialize (IH Hin Hp).
    replace (JS.findIndex p rest <? 0) with false by (symmetry; apply Z.ltb_ge; lia).
    lia.
Qed.

Lemma findIndex_hit (l : list A) :
  0 <= JS.findIndex p l ->
  exists x, JS.get l (JS.findIndex p l) = Some x /\ p x = true.
Proof.
  induction l as [|y rest IH]; simpl.
  - lia.
  - destruct (p y) eqn:Hy.
    + intros _. exists y. split; [reflexivity|assumption].
    + destruct (JS.findIndex p rest <? 0) eqn:E; [lia|].
      apply Z.ltb_ge in E. intros _.
      destruct (IH E) as [x [Hget Hp]].
      exists x. split; [|assumption].
      rewrite get_cons.
      replace (JS.findIndex p rest + 1 =? 0) with false
        by (symmetry; apply Z.eqb_neq; lia).
      now replace (JS.findIndex p rest + 1 - 1) with (JS.findIndex p rest) by lia.
Qed.

End ArrayFacts.

(** ** MusicPlayer: volume and mute *)

Section VolumeAndMute.

Import MusicPlayer.

Lemma clamp_in_range (v : Q) : (0 <= v <= 1)%Q -> clamp v 0 1 = v.
Proof.
  intros [Hlo Hhi]. unfold clamp.
  destruct (Qlt_le_dec v 0) as [Hlt|_].
  - exfalso. exact (Qlt_not_le _ _ Hlt Hlo).
  - destruct (Qlt_le_dec 1 v) as [Hgt|_]; [|reflexivity].
    exfalso. exact (Qlt_not_le _ _ Hgt Hhi).
Qed.

(** The volume effect writes [isMuted ? 0 : volume] to the audio element,
    when there is one. *)
Lemma volumeEffect_writes (s : State) :
  option_map el_volume (audioRef (volumeEffect s))
  = option_map (fun _ => outputVolume s) (audioRef s).
Proof.
  unfold volumeEffect. destruct (audioRef s) as [a|] eqn:E; simpl.
  - rewrite E. reflexivity.
  - rewrite E. reflexivity.
Qed.

(** The handler stores the slider value as it is and derives the mute flag
    from it, whatever the value; the output is the value itself. *)
Lemma handleVolumeChange_stores (s : State) (v : Q) :
  volume (handleVolumeChange v s) = v
  /\ isMuted (handleVolumeChange v s) = Qeq_bool v 0
  /\ (outputVolume (handleVolumeChange v s) == v)%Q.
Proof.
  unfold handleVolumeChange, outputVolume; simpl.
  repeat split.
  destruct (Qeq_bool v 0) eqn:E.
  - apply Qeq_bool_iff in E. symmetry. exact E.
  - reflexivity.
Qed.

(** C1, as the code has it: for a slider value [v] in [[0,1]],
    [handleVolumeChange] stores [v], which is [clamp(v, 0, 1)], sets the
    mute flag to [v === 0] instead of leaving it alone, and the output
    volume read afterwards is [clamp(v, 0, 1)]. *)
Theorem handleVolumeChange_in_range (s : State) (v : Q) :
  (0 <= v <= 1)%Q ->
  volume (handleVolumeChange v s) = clamp v 0 1
  /\ isMuted (handleVolumeChange v s) = Qeq_bool v 0
  /\ (outputVolume (handleVolumeChange v s) == clamp v 0 1)%Q
  /\ option_map el_volume (audioRef (volumeEffect (handleVolumeChange v s)))
     = option_map (fun _ => outputVolume (handleVolumeChange v s)) (audioRef s).
Proof.
  intros Hv. rewrite (clamp_in_range v Hv).
  destruct (handleVolumeChange_stores s v) as [H1 [H2 H3]].
  repeat split; try assumption.
  exact (volumeEffect_writes (handleVolumeChange v s)).
Qed.

Lemma handleVolumeChange_in_range_witness :
  (0 <= 3 # 10 <= 1)%Q
  /\ volume (handleVolumeChange (3 # 10) initial) = clamp (3 # 10) 0 1.
Proof.
  assert (H : (0 <= 3 # 10 <= 1)%Q) by (split; unfold Qle; simpl; lia).
  split; [exact H|].
  exact (proj1 (handleVolumeChange_in_range initial (3 # 10) H)).
Defined.

(** C1 as stated fails: a muted player is unmuted by moving the slider to
    one half, and an unmuted one is muted by moving it to zero. *)
Lemma handleVolumeChange_changes_muted :
  isMuted (setIsMuted true initial) = true
  /\ isMuted (handleVolumeChange (1 # 2) (setIsMuted true initial)) = false
  /\ isMuted initial = false
  /\ isMuted (handleVolumeChange 0 initial) = true.
Proof. repeat split. Qed.


End VolumeAndMute.

(** ** MusicPlayer: seeking *)

Section Seeking.

Import MusicPlayer.

(** A handler call that returns leaves every cell but [currentTime] as it
    was, the playing flag among them. *)
Lemma handleProgressClick_keeps_status
    (seek : Q -> AudioElement -> AudioElement) (s s' : State) (clientX : Q) :
  handleProgressClick seek clientX s = Returned s' ->
  isPlaying s' = isPlaying s /\ duration s' = duration s
  /\ volume s' = volume s /\ isMuted s' = isMuted s.
Proof.
  unfold handleProgressClick.
  destruct (audioRef s) as [a|]; [|intros H; injection H as <-; repeat split].
  destruct (progressRef s) as [r|]; [|intros H; injection H as <-; repeat split].
  cbv zeta.
  destruct (JS.mul (JS.div (clientX - left r) (width r)) (duration s)) as [t|];
    [|discriminate].
  intros H. injection H as <-. repeat split.
Qed.






(** Where the position is not a finite number (a bar of width zero, a
    duration that is not finite) the assignment to [currentTime] throws
    and nothing is stored. *)
Remark handleProgressClick_throws
    (seek : Q -> AudioElement -> AudioElement)
    (s : State) (a : AudioElement) (rect : DOMRect) (clientX : Q) :
  audioRef s = Some a ->
  progressRef s = Some rect ->
  (width rect == 0)%Q \/ duration s = JS.NonFinite ->
  handleProgressClick seek clientX s = Threw.
Proof.
  intros Ha Hr Hbad. unfold handleProgressClick. rewrite Ha, Hr. cbv zeta.
  destruct Hbad as [Hw|Hd].
  - unfold JS.div. apply Qeq_bool_iff in Hw. rewrite Hw. reflexivity.
  - rewrite Hd. destruct (JS.div (clientX - left rect) (width rect)); reflexivity.
Qed.

End Seeking.

(** ** MusicPlayer: navigation *)

Section Navigation.

Import MusicPlayer.

Lemma sameId_true (cur t : Track) : sameId (Some cur) t = true <-> id t = id cur.
Proof. unfold sameId. apply Z.eqb_eq. Qed.

Lemma sameId_false (cur t : Track) : sameId (Some cur) t = false <-> id t <> id cur.
Proof. unfold sameId. apply Z.eqb_neq. Qed.

Lemma get_bounds (pl : list Track) (i : Z) (t : Track) :
  JS.get pl i = Some t -> 0 <= i < JS.length pl.
Proof.
  unfold JS.get, JS.length.
  destruct (i <? 0) eqn:E; [discriminate|].
  apply Z.ltb_ge in E. intros H.
  assert (Hlt : (Z.to_nat i < List.length pl)%nat)
    by (apply nth_error_Some; congruence).
  lia.
Qed.

(** With unique ids, looking a track up by its id finds its own index. *)
Lemma findIndex_own_index (pl : list Track) :
  NoDup (ids pl) ->
  forall i t, JS.get pl i = Some t -> JS.findIndex (sameId (Some t)) pl = i.
Proof.
  induction pl as [|x rest IH]; intros Hnd i t Hget.
  - apply get_bounds in Hget. unfold JS.length in Hget. simpl in Hget. lia.
  - rewrite get_cons in Hget. cbn [JS.findIndex].
    destruct (i =? 0) eqn:Hi.
    + injection Hget as ->. apply Z.eqb_eq in Hi.
      replace (sameId (Some t) t) with true
        by (symmetry; now apply sameId_true).
      now subst i.
    + apply Z.eqb_neq in Hi.
      inversion Hnd as [|? ? Hnotin Hnd']; subst.
      assert (Hx : sameId (Some t) x = false).
      { apply sameId_false. intros Heq. apply Hnotin.
        rewrite Heq. unfold ids. apply in_map. eapply get_In. exact Hget. }
      rewrite Hx.
      pose proof (get_bounds _ _ _ Hget) as Hb.
      rewrite (IH Hnd' _ _ Hget).
      replace (i - 1 <? 0) with false by (symmetry; apply Z.ltb_ge; lia).
      lia.
Qed.

Lemma present_index (pl : list Track) (cur : Track) :
  In (id cur) (ids pl) ->
  0 <= JS.findIndex (sameId (Some cur)) pl < JS.length pl.
Proof.
  intros Hin. unfold ids in Hin. apply in_map_iff in Hin.
  destruct Hin as [x [Hid Hx]].
  split.
  - apply (findIndex_present _ pl x Hx). now apply sameId_true.
  - apply findIndex_range.
Qed.

(** [next()] then [previous()] on a playlist with unique ids that holds
    the current track. *)
Lemma next_previous_round_trip (pl : list Track) (cur : Track) :
  NoDup (ids pl) ->
  In (id cur) (ids pl) ->
  let afterNext := onTrackChange (Some cur) (handleNext (Some pl) (Some cur)) in
  activeTrackId (onTrackChange afterNext (handlePrevious (Some pl) afterNext))
  = activeTrackId (Some cur).
Proof.
  intros Hnd Hin.
  pose proof (present_index pl cur Hin) as Hi.
  set (i := JS.findIndex (sameId (Some cur)) pl) in *.
  assert (Hlen : (JS.length pl =? 0) = false) by (apply Z.eqb_neq; lia).
  destruct (findIndex_hit (sameId (Some cur)) pl (proj1 Hi)) as [y [Hy Hsame]].
  fold i in Hy. apply sameId_true in Hsame.
  set (n := Z.rem (i + 1) (JS.length pl)).
  assert (Hn : 0 <= n < JS.length pl /\
               (if n =? 0 then JS.length pl - 1 else n - 1) = i).
  { unfold n. destruct (Z.eq_dec (i + 1) (JS.length pl)) as [E|E].
    - rewrite E, Z.rem_same by lia. simpl. lia.
    - rewrite Z.rem_small by lia.
      replace (i + 1 =? 0) with false by (symmetry; apply Z.eqb_neq; lia).
      lia. }
  destruct Hn as [Hn Hprev].
  destruct (get_in_range pl n Hn) as [t' Ht'].
  unfold handleNext, handlePrevious. rewrite Hlen. fold i. fold n.
  rewrite Ht'. simpl onTrackChange. cbv zeta.
  rewrite (findIndex_own_index pl Hnd n t' Ht').
  rewrite Hprev, Hy. simpl. now rewrite Hsame.
Qed.

(** C4: on a playlist of at least two entries that holds the current
    track (ids unique within the snapshot, the invariant of the data
    model), [next()] followed by [previous()] gives back the
    [activeTrackId] it started from. *)
Theorem next_then_previous_restores (pl : list Track) (cur : Track) :
  (2 <= List.length pl)%nat ->
  NoDup (ids pl) ->
  In (id cur) (ids pl) ->
  let afterNext := onTrackChange (Some cur) (handleNext (Some pl) (Some cur)) in
  activeTrackId (onTrackChange afterNext (handlePrevious (Some pl) afterNext))
  = Some (id cur).
Proof.
  intros _ Hnd Hin. exact (next_previous_round_trip pl cur Hnd Hin).
Qed.

Lemma next_then_previous_restores_witness :
  let pl := [trackA; trackB; trackC] in
  let afterNext := onTrackChange (Some trackC) (handleNext (Some pl) (Some trackC)) in
  activeTrackId (onTrackChange afterNext (handlePrevious (Some pl) afterNext))
  = Some (id trackC).
Proof.
  apply (next_then_previous_restores [trackA; trackB; trackC] trackC).
  - simpl. lia.
  - simpl. repeat constructor; simpl; intuition discriminate.
  - simpl. right. right. left. reflexivity.
Defined.

(** The invariant is used: with an id occurring twice, [previous()] looks
    the id up and lands next to its first occurrence. *)
Remark round_trip_uses_unique_ids :
  let b' := {| id := 2; name := "B again"; artist := None; url := "blob:b2" |} in
  let pl := [trackA; trackB; trackC; b'] in
  let afterNext := onTrackChange (Some trackC) (handleNext (Some pl) (Some trackC)) in
  activeTrackId (onTrackChange afterNext (handlePrevious (Some pl) afterNext))
  = Some (id trackA).
Proof. reflexivity. Qed.

(** C2, as the code has it: when the current track's id is not in the
    playlist, [handleNext] reports nothing and selects the first entry;
    on an empty playlist neither handler calls [onTrackChange]. *)
Theorem navigation_with_absent_track (pl : list Track) (cur : Track) :
  ~ In (id cur) (ids pl) ->
  handleNext (Some pl) (Some cur)
  = match pl with
    | [] => NotCalled
    | first :: _ => Called (Some first)
    end
  /\ handleNext (Some []) (Some cur) = NotCalled
  /\ handlePrevious (Some []) (Some cur) = NotCalled.
Proof.
  intros Habsent. split.
  - destruct pl as [|first rest]; [reflexivity|].
    unfold handleNext.
    replace (JS.length (first :: rest) =? 0) with false
      by (symmetry; apply Z.eqb_neq; unfold JS.length; simpl List.length; lia).
    rewrite findIndex_absent.
    + replace (-1 + 1) with 0 by lia.
      rewrite Z.rem_0_l by (unfold JS.length; simpl List.length; lia).
      reflexivity.
    + intros x Hx. apply sameId_false. intros Heq. apply Habsent.
      rewrite <- Heq. unfold ids. now apply in_map.
  - split; reflexivity.
Qed.

Lemma navigation_with_absent_track_witness :
  handleNext (Some [trackA; trackB; trackC]) (Some trackD) = Called (Some trackA)
  /\ handleNext (Some []) (Some trackD) = NotCalled
  /\ handlePrevious (Some []) (Some trackD) = NotCalled.
Proof.
  apply (navigation_with_absent_track [trackA; trackB; trackC] trackD).
  simpl. intuition discriminate.
Defined.

(** C2 as stated fails: with the current track [D] absent from
    [[A, B, C]], [next()] selects [A], and [previous()] calls
    [onTrackChange] with [undefined]; neither reports an error. *)
Lemma absent_track_is_not_an_error :
  ~ In (id trackD) (ids [trackA; trackB; trackC])
  /\ handleNext (Some [trackA; trackB; trackC]) (Some trackD) = Called (Some trackA)
  /\ activeTrackId (onTrackChange (Some trackD)
                      (handleNext (Some [trackA; trackB; trackC]) (Some trackD)))
     = Some (id trackA)
  /\ handlePrevious (Some [trackA; trackB; trackC]) (Some trackD) = Called None.
Proof.
  split; [simpl; intuition discriminate|].
  repeat split.
Qed.

(** C5, as the code has it: on an empty playlist the handlers return
    without calling [onTrackChange]; on a one-entry playlist that holds
    the current track they call it with that entry, so [activeTrackId]
    stays; nothing is reported in either case, and the two buttons are
    disabled. *)
Theorem short_playlist_navigation (pl : list Track) (cur : Track) :
  (List.length pl <= 1)%nat ->
  pl = [] \/ In (id cur) (ids pl) ->
  handleNext (Some pl) (Some cur)
  = match pl with [] => NotCalled | only :: _ => Called (Some only) end
  /\ handlePrevious (Some pl) (Some cur)
     = match pl with [] => NotCalled | only :: _ => Called (Some only) end
  /\ activeTrackId (onTrackChange (Some cur) (handleNext (Some pl) (Some cur)))
     = Some (id cur)
  /\ activeTrackId (onTrackChange (Some cur) (handlePrevious (Some pl) (Some cur)))
     = Some (id cur)
  /\ navigationDisabled (Some pl) = true.
Proof.
  intros Hlen Hcur.
  destruct pl as [|only rest].
  - repeat split.
  - destruct rest as [|more rest]; [|simpl in Hlen; lia].
    destruct Hcur as [Hnil|Hin]; [discriminate|].
    simpl in Hin. destruct Hin as [Hid|[]].
    unfold handleNext, handlePrevious.
    cbn [JS.findIndex].
    replace (sameId (Some cur) only) with true
      by (symmetry; now apply sameId_true).
    simpl. rewrite Hid. repeat split.
Qed.

Lemma short_playlist_navigation_witness :
  handleNext (Some [trackA]) (Some trackA) = Called (Some trackA)
  /\ handlePrevious (Some [trackA]) (Some trackA) = Called (Some trackA)
  /\ activeTrackId (onTrackChange (Some trackA) (handleNext (Some [trackA]) (Some trackA)))
     = Some (id trackA)
  /\ activeTrackId (onTrackChange (Some trackA) (handlePrevious (Some [trackA]) (Some trackA)))
     = Some (id trackA)
  /\ navigationDisabled (Some [trackA]) = true.
Proof.
  apply (short_playlist_navigation [trackA] trackA).
  - simpl. lia.
  - right. simpl. left. reflexivity.
Defined.

(** C5 as stated fails: on the one-entry playlist [[A]] the handlers are
    not no-ops, they call [onTrackChange]; and when the current track is
    [B], [next()] replaces it by [A]. *)
Lemma single_track_is_not_a_no_op :
  handleNext (Some [trackA]) (Some trackA) = Called (Some trackA)
  /\ handlePrevious (Some [trackA]) (Some trackA) = Called (Some trackA)
  /\ activeTrackId (Some trackB) = Some 2
  /\ activeTrackId (onTrackChange (Some trackB) (handleNext (Some [trackA]) (Some trackB)))
     = Some 1.
Proof. repeat split. Qed.

Lemma renders_app (xs ys : list Render) (c : Player) :
  renders (xs ++ ys) c = renders ys (renders xs c).
Proof. unfold renders. apply fold_left_app. Qed.

Lemma last_cons {A : Type} (x d : A) (l : list A) : last (x :: l) d = last l x.
Proof.
  revert x d. induction l as [|y l IH]; intros x d; [reflexivity|].
  change (last (x :: y :: l) d) with (last (y :: l) d).
  now rewrite !IH.
Qed.

(** Renders that keep the track leave the listener for [ended] alone,
    while the click handlers follow the playlist. *)
Lemma renders_kept (later : list (option (list Track))) (c : Player) :
  endedListener (renders (map TrackKept later) c) = endedListener c
  /\ currentTrack (props (renders (map TrackKept later) c)) = currentTrack (props c)
  /\ playlist (props (renders (map TrackKept later) c)) = last later (playlist (props c)).
Proof.
  revert c. induction later as [|pl later IH]; intros c; [repeat split|].
  change (renders (map TrackKept (pl :: later)) c)
    with (renders (map TrackKept later) (rerender (TrackKept pl) c)).
  destruct (IH (rerender (TrackKept pl) c)) as [Hl [Ht Hp]].
  rewrite Hl, Ht, Hp, last_cons. repeat split.
Qed.

(** The listener never holds a stale track, and there is one exactly
    when there is a track: the effect runs again at every change of
    [currentTrack]. *)
Lemma listener_sees_current_track (rs : list Render) (p : Props) :
  let c := renders rs (mount p) in
  match endedListener c with
  | Some seen => currentTrack seen = currentTrack (props c)
                 /\ currentTrack (props c) <> None
  | None => currentTrack (props c) = None
  end.
Proof.
  cbv zeta.
  assert (Hinv : forall rs0 c,
             match endedListener c with
             | Some seen => currentTrack seen = currentTrack (props c)
                            /\ currentTrack (props c) <> None
             | None => currentTrack (props c) = None
             end ->
             match endedListener (renders rs0 c) with
             | Some seen => currentTrack seen = currentTrack (props (renders rs0 c))
                            /\ currentTrack (props (renders rs0 c)) <> None
             | None => currentTrack (props (renders rs0 c)) = None
             end).
  { induction rs0 as [|r rs0 IH]; intros c Hc; [exact Hc|].
    change (renders (r :: rs0) c) with (renders rs0 (rerender r c)).
    apply IH. destruct r as [q|pl].
    - destruct q as [[t|] pl]; simpl; [split; [reflexivity|discriminate]|reflexivity].
    - simpl. exact Hc. }
  apply Hinv. destruct p as [[t|] pl]; simpl; [split; [reflexivity|discriminate]|reflexivity].
Qed.

(** As long as the playlist is the one of the render that changed the
    track, the natural end makes the call a click on next would make; so it
    does in the scenario of the specification, where [next()] from [B]
    selects [C] and the natural end of [C] wraps to [A]. *)
Lemma natural_end_on_the_same_playlist :
  (forall (c0 : Player) (before : list Render) (t : Track)
          (pl : option (list Track)) (n : nat) (s : State),
      let c := renders (before ++ TrackChanged {| currentTrack := Some t; playlist := pl |}
                          :: repeat (TrackKept pl) n) c0 in
      onEnded c s = (setIsPlaying false s, clickNext c))
  /\ (let pl := Some [trackA; trackB; trackC] in
      let c0 := mount {| currentTrack := Some trackB; playlist := pl |} in
      let c1 := rerender (TrackChanged {| currentTrack := onTrackChange (Some trackB) (clickNext c0);
                                          playlist := pl |}) c0 in
      currentTrack (props c1) = Some trackC
      /\ forall s, isPlaying (fst (onEnded c1 s)) = false
                   /\ onTrackChange (currentTrack (props c1)) (snd (onEnded c1 s))
                      = Some trackA).
Proof.
  split.
  - intros c0 before t pl n s c. subst c.
    rewrite renders_app.
    change (renders (TrackChanged {| currentTrack := Some t; playlist := pl |}
                       :: repeat (TrackKept pl) n) (renders before c0))
      with (renders (repeat (TrackKept pl) n)
              (mount {| currentTrack := Some t; playlist := pl |})).
    rewrite <- map_repeat.
    destruct (renders_kept (repeat pl n) (mount {| currentTrack := Some t; playlist := pl |}))
      as [Hl [Ht Hp]].
    unfold onEnded, clickNext. rewrite Hl, Ht, Hp. simpl.
    replace (last (repeat pl n) pl) with pl; [reflexivity|].
    clear. induction n as [|n IH]; [reflexivity|].
    change (repeat pl (S n)) with (pl :: repeat pl n). now rewrite last_cons.
  - split; [reflexivity|]. intros s. split; reflexivity.
Qed.

(** C6, where the code departs from it: the listener for [ended] is
    registered by an effect that depends on [currentTrack] alone, so
    [handleEnded] runs the [handleNext] of the render that last changed the
    track and navigates the playlist of that render, whatever playlist the
    player has been given since; a click on next navigates the latest one.
    With [C] current in [[A, B, C]] and the playlist then replaced by
    [[A, B, C, D]], the natural end of [C] selects [A] where [next()]
    selects [D]. *)
Theorem natural_end_navigates_stale_playlist :
  (forall (c0 : Player) (before : list Render) (p : Props)
          (later : list (option (list Track))) (s : State),
      let c := renders (before ++ TrackChanged p :: map TrackKept later) c0 in
      onEnded c s
      = match currentTrack p with
        | Some _ => (setIsPlaying false s, handleNext (playlist p) (currentTrack p))
        | None => (s, NotCalled)
        end
      /\ clickNext c = handleNext (last later (playlist p)) (currentTrack p))
  /\ (let c := renders [TrackKept (Some [trackA; trackB; trackC; trackD])]
                 (mount {| currentTrack := Some trackC;
                           playlist := Some [trackA; trackB; trackC] |}) in
      clickNext c = Called (Some trackD)
      /\ forall s, onEnded c s = (setIsPlaying false s, Called (Some trackA))).
Proof.
  split.
  - intros c0 before p later s c. subst c.
    rewrite renders_app.
    change (renders (TrackChanged p :: map TrackKept later) (renders before c0))
      with (renders (map TrackKept later) (mount p)).
    destruct (renders_kept later (mount p)) as [Hl [Ht Hp]].
    unfold onEnded, clickNext. rewrite Hl, Ht, Hp.
    split; [|reflexivity].
    destruct p as [[t|] pl]; reflexivity.
  - split; [reflexivity|]. intros s. reflexivity.
Qed.

End Navigation.

(** ** Upload validation *)

Section UploadValidation.

Import FileUpload AudioUtils.

(** C9: a file larger than 50 MiB is turned away by both validators,
    whatever its type and name: [handleFileSelect] leaves an error message
    and does not call [onFileUpload], [isValidMP3File] answers [false]. *)
Theorem oversized_file_rejected (f : File) :
  size f > 50 * 1024 * 1024 ->
  uploadError (handleFileSelect (Some f)) <> EmptyString
  /\ onFileUpload (handleFileSelect (Some f)) = None
  /\ isValidMP3File (Some f) = false.
Proof.
  intros Hbig.
  assert (Hgt : (size f >? 50 * 1024 * 1024) = true) by (apply Z.gtb_lt; lia).
  unfold handleFileSelect, isValidMP3File.
  repeat split.
  - destruct (negb (JS.includes (type f) "audio/mpeg")
              && negb (JS.endsWith (JS.toLowerCase (name f)) ".mp3")).
    + discriminate.
    + rewrite Hgt. discriminate.
  - destruct (negb (JS.includes (type f) "audio/mpeg")
              && negb (JS.endsWith (JS.toLowerCase (name f)) ".mp3")).
    + reflexivity.
    + rewrite Hgt. reflexivity.
  - destruct (negb (existsb (String.eqb (type f)) validTypes)); [reflexivity|].
    destruct (negb (JS.endsWith (JS.toLowerCase (name f)) ".mp3")); [reflexivity|].
    cbv zeta. rewrite Hgt. reflexivity.
Qed.

Lemma oversized_file_rejected_witness :
  uploadError (handleFileSelect (Some oversized)) <> EmptyString
  /\ onFileUpload (handleFileSelect (Some oversized)) = None
  /\ isValidMP3File (Some oversized) = false.
Proof.
  apply (oversized_file_rejected oversized).
  simpl. lia.
Defined.

(** The validators do accept a file: the same checks pass a small MP3, and
    the oversized one is stopped by the size check, not by its name. *)
Example small_file_accepted :
  handleFileSelect (Some small) = {| uploadError := EmptyString; onFileUpload := Some small |}
  /\ isValidMP3File (Some small) = true
  /\ uploadError (handleFileSelect (Some oversized)) = "File size must be less than 50MB"%string.
Proof. repeat split. Qed.

End UploadValidation.

(** ** Lists: filtering and the stable sort *)

Section FilterFacts.

Context {A : Type}.

Lemma filter_twice (f g : A -> bool) (l : list A) :
  filter f (filter g l) = filter (fun x => g x && f x) l.
Proof.
  induction l as [|x rest IH]; simpl; [reflexivity|].
  destruct (g x); simpl; [destruct (f x)|]; now rewrite IH.
Qed.

Lemma filter_swap (f g : A -> bool) (l : list A) :
  filter f (filter g l) = filter g (filter f l).
Proof.
  rewrite !filter_twice. apply filter_ext. intros x. apply andb_comm.
Qed.

Lemma filter_all (f : A -> bool) (l : list A) :
  (forall x, In x l -> f x = true) -> filter f l = l.
Proof.
  intros H. apply forallb_filter_id. apply forallb_forall. exact H.
Qed.

Lemma filter_none (f : A -> bool) (l : list A) :
  (forall x, In x l -> f x = false) -> filter f l = [].
Proof.
  induction l as [|x rest IH]; intros H; simpl; [reflexivity|].
  rewrite (H x (or_introl eq_refl)). apply IH.
  intros y Hy. apply H. now right.
Qed.

Lemma filter_Permutation (f : A -> bool) (l l' : list A) :
  Permutation l l' -> Permutation (filter f l) (filter f l').
Proof.
  induction 1 as [|x l l' _ IH|x y l|l l' l'' _ IH1 _ IH2]; simpl.
  - constructor.
  - destruct (f x); [now constructor|assumption].
  - destruct (f x), (f y); try reflexivity. apply perm_swap.
  - now transitivity (filter f l').
Qed.

Lemma NoDup_app_apart (l1 l2 : list A) :
  NoDup (l1 ++ l2) -> forall x, In x l1 -> In x l2 -> False.
Proof.
  induction l1 as [|a rest IH]; simpl; intros Hnd x H1 H2; [assumption|].
  inversion Hnd as [|? ? Hnotin Hnd']; subst.
  destruct H1 as [->|H1].
  - apply Hnotin. apply in_or_app. now right.
  - exact (IH Hnd' x H1 H2).
Qed.

Lemma StronglySorted_across (R : A -> A -> Prop) (l1 l2 : list A) :
  StronglySorted R (l1 ++ l2) ->
  forall a b, In a l1 -> In b l2 -> R a b.
Proof.
  induction l1 as [|x rest IH]; simpl; intros Hs a b Ha Hb; [destruct Ha|].
  inversion Hs as [|? ? Hrest Hall]; subst.
  destruct Ha as [->|Ha].
  - rewrite Forall_forall in Hall. apply Hall. apply in_or_app. now right.
  - exact (IH Hrest a b Ha Hb).
Qed.

End FilterFacts.

Section SortFacts.

Context {A : Type}.
Variable cmp : A -> A -> Z.

(** A consistent comparator: any two elements are ordered one way or the
    other, and the order is transitive. *)
Hypothesis cmp_total : forall a b, cmp a b <= 0 \/ cmp b a <= 0.
Hypothesis cmp_trans : forall a b c, cmp a b <= 0 -> cmp b c <= 0 -> cmp a c <= 0.

Lemma insertBy_Permutation (x : A) (l : list A) :
  Permutation (x :: l) (JS.insertBy cmp x l).
Proof.
  induction l as [|y rest IH]; simpl.
  - reflexivity.
  - destruct (cmp x y <=? 0).
    + reflexivity.
    + rewrite perm_swap. now constructor.
Qed.

Lemma sort_Permutation (l : list A) : Permutation l (JS.sort cmp l).
Proof.
  unfold JS.sort.
  induction l as [|x rest IH]; simpl.
  - constructor.
  - rewrite <- insertBy_Permutation. now constructor.
Qed.

Lemma insertBy_sorted (x : A) (l : list A) :
  StronglySorted (fun a b => cmp a b <= 0) l ->
  StronglySorted (fun a b => cmp a b <= 0) (JS.insertBy cmp x l).
Proof.
  induction l as [|y rest IH]; intros Hs; simpl.
  - constructor; constructor.
  - inversion Hs as [|? ? Hrest Hall]; subst.
    destruct (cmp x y <=? 0) eqn:E.
    + apply Z.leb_le in E.
      constructor; [assumption|].
      constructor; [assumption|].
      rewrite Forall_forall in *. intros z Hz.
      exact (cmp_trans x y z E (Hall z Hz)).
    + apply Z.leb_gt in E.
      constructor; [now apply IH|].
      rewrite Forall_forall in *. intros z Hz.
      apply (Permutation_in z (Permutation_sym (insertBy_Permutation x rest))) in Hz.
      destruct Hz as [<-|Hz].
      * destruct (cmp_total x y); [lia|assumption].
      * now apply Hall.
Qed.

Lemma sort_sorted (l : list A) :
  StronglySorted (fun a b => cmp a b <= 0) (JS.sort cmp l).
Proof.
  unfold JS.sort.
  induction l as [|x rest IH]; simpl.
  - constructor.
  - now apply insertBy_sorted.
Qed.

End SortFacts.

(** ** Saved recordings in localStorage *)

Section SavedRecordings.

Import AudioUtils.

Lemma byTimestampDesc_total (a b : SavedTrack) :
  byTimestampDesc a b <= 0 \/ byTimestampDesc b a <= 0.
Proof. unfold byTimestampDesc. lia. Qed.

Lemma byTimestampDesc_trans (a b c : SavedTrack) :
  byTimestampDesc a b <= 0 -> byTimestampDesc b c <= 0 -> byTimestampDesc a c <= 0.
Proof. unfold byTimestampDesc. lia. Qed.

(** [getAllSavedTracks] lists the tracks by descending timestamp, a
    missing timestamp counting as 0. *)
Lemma getAllSavedTracks_sorted (st : Storage) :
  StronglySorted (fun a b => timestampOr0 b <= timestampOr0 a) (getAllSavedTracks st).
Proof.
  unfold getAllSavedTracks.
  eapply StronglySorted_ind with
    (P := fun l => StronglySorted (fun a b => timestampOr0 b <= timestampOr0 a) l).
  3: { apply sort_sorted.
       - exact byTimestampDesc_total.
       - exact byTimestampDesc_trans. }
  - constructor.
  - intros a l _ IH Hall. constructor; [assumption|].
    eapply Forall_impl; [|exact Hall].
    intros b Hb. unfold byTimestampDesc in Hb. lia.
Qed.

Lemma entryTrack_timestamp (e : string * Item) :
  timestampOr0 (entryTrack e) = entryTimestamp e.
Proof.
  unfold timestampOr0, entryTrack, entryTimestamp; simpl.
  destruct (snd e) as [|data]; reflexivity.
Qed.

Lemma getItem_own (st : Storage) (e : string * Item) :
  NoDup (map fst st) -> In e st -> getItem (fst e) st = Some (snd e).
Proof.
  unfold getItem.
  induction st as [|a rest IH]; intros Hnd Hin; [destruct Hin|].
  simpl in Hnd. inversion Hnd as [|? ? Hnotin Hnd']; subst.
  simpl. destruct Hin as [->|Hin].
  - now rewrite String.eqb_refl.
  - destruct (String.eqb (fst a) (fst e)) eqn:E.
    + apply String.eqb_eq in E. exfalso. apply Hnotin.
      rewrite E. now apply in_map.
    + now apply IH.
Qed.

Lemma NoDup_keys_filter (f : string * Item -> bool) (st : Storage) :
  NoDup (map fst st) -> NoDup (map fst (filter f st)).
Proof.
  induction st as [|a rest IH]; simpl; intros Hnd; [constructor|].
  inversion Hnd as [|? ? Hnotin Hnd']; subst.
  destruct (f a); simpl; [|now apply IH].
  constructor; [|now apply IH].
  intros Hin. apply Hnotin.
  apply in_map_iff in Hin. destruct Hin as [x [Hx Hin]].
  apply filter_In in Hin. rewrite <- Hx. apply in_map. apply Hin.
Qed.

Lemma same_key_same_entry (st : Storage) (e e' : string * Item) :
  NoDup (map fst st) -> In e st -> In e' st -> fst e = fst e' -> e = e'.
Proof.
  intros Hnd He He' Hk.
  pose proof (getItem_own st e Hnd He) as H1.
  pose proof (getItem_own st e' Hnd He') as H2.
  rewrite Hk in H1. rewrite H1 in H2. injection H2 as Hs.
  destruct e, e'; simpl in *; congruence.
Qed.

Section WellFormed.

Variable st : Storage.

(** [localStorage] holds one value per key. *)
Hypothesis keys_unique : NoDup (map fst st).

(** Every saved recording is stored under its own key. *)
Hypothesis saved_plain : Forall plainAudio (savedEntries st).

Lemma collect_entry (e : string * Item) :
  In e st ->
  collect st (fst e) = if isSaved e then [entryTrack e] else [].
Proof.
  intros Hin. unfold collect, isSaved, isAudioEntry.
  destruct (JS.startsWith (fst e) "audio_") eqn:Ha; [|reflexivity].
  unfold loadFromLocalStorage.
  rewrite (getItem_own st e keys_unique Hin).
  destruct (snd e) as [|data] eqn:Hsnd.
  - unfold isLoadable. now rewrite Hsnd.
  - assert (Hplain : plainAudio e).
    { rewrite Forall_forall in saved_plain. apply saved_plain.
      apply filter_In. split; [assumption|].
      unfold isSaved, isAudioEntry, isLoadable. now rewrite Ha, Hsnd. }
    destruct Hplain as [data' [Hsnd' Hkey]].
    rewrite Hsnd in Hsnd'. injection Hsnd' as <-.
    unfold isLoadable, spread, entryTrack. rewrite Hsnd. simpl.
    destruct Hkey as [-> | ->]; reflexivity.
Qed.

Lemma collected_tracks (l : list (string * Item)) :
  incl l st ->
  flat_map (collect st) (map fst l) = map entryTrack (filter isSaved l).
Proof.
  induction l as [|e rest IH]; intros Hincl; [reflexivity|].
  simpl. rewrite (collect_entry e) by (apply Hincl; now left).
  rewrite IH by (intros x Hx; apply Hincl; now right).
  destruct (isSaved e); reflexivity.
Qed.

Lemma getAllSavedTracks_entries :
  getAllSavedTracks st = JS.sort byTimestampDesc (map entryTrack (savedEntries st)).
Proof.
  unfold getAllSavedTracks. rewrite collected_tracks by apply incl_refl.
  reflexivity.
Qed.

Lemma saved_tracks_Permutation :
  Permutation (map entryTrack (savedEntries st)) (getAllSavedTracks st).
Proof. rewrite getAllSavedTracks_entries. apply sort_Permutation. Qed.

Lemma saved_track_keys_unique : NoDup (map t_key (getAllSavedTracks st)).
Proof.
  eapply Permutation_NoDup.
  - apply Permutation_map. exact saved_tracks_Permutation.
  - rewrite map_map. simpl.
    change (NoDup (map fst (savedEntries st))).
    now apply NoDup_keys_filter.
Qed.

End WellFormed.

(** [clearOldAudioData] keeps the entries whose key is not the key of a
    track past the fifth. *)
Lemma remove_all (toRemove : list SavedTrack) (st : Storage) :
  fold_left (fun s track => removeFromLocalStorage (t_key track) s) toRemove st
  = filter (spared toRemove) st.
Proof.
  revert st. induction toRemove as [|r rest IH]; intros st; simpl.
  - symmetry. apply filter_all. reflexivity.
  - rewrite IH. unfold removeFromLocalStorage. rewrite filter_twice.
    apply filter_ext. intros e. unfold spared. simpl.
    now rewrite negb_orb.
Qed.

Lemma clearOldAudioData_filter (st : Storage) :
  clearOldAudioData st = filter (spared (skipn 5 (getAllSavedTracks st))) st.
Proof. unfold clearOldAudioData, JS.slice. apply remove_all. Qed.

Lemma savedEntries_after_clear (st : Storage) :
  savedEntries (clearOldAudioData st)
  = filter (spared (skipn 5 (getAllSavedTracks st))) (savedEntries st).
Proof.
  rewrite clearOldAudioData_filter. unfold savedEntries. apply filter_swap.
Qed.

Lemma audioEntries_after_clear (st : Storage) :
  audioEntries (clearOldAudioData st)
  = filter (spared (skipn 5 (getAllSavedTracks st))) (audioEntries st).
Proof.
  rewrite clearOldAudioData_filter. unfold audioEntries. apply filter_swap.
Qed.

(** When every ['audio_'] entry loads, the saved recordings are the
    ['audio_'] entries. *)
Lemma savedEntries_all_loadable (st : Storage) :
  (forall e, In e (audioEntries st) -> isLoadable e = true) ->
  savedEntries st = audioEntries st.
Proof.
  intros Hall. unfold savedEntries, audioEntries.
  apply filter_ext_in. intros e He. unfold isSaved.
  destruct (isAudioEntry e) eqn:Ha; [|reflexivity].
  simpl. apply Hall. apply filter_In. now split.
Qed.

Lemma sparedTrack_false (toRemove : list SavedTrack) (t : SavedTrack) :
  sparedTrack toRemove t = false <->
  exists r, In r toRemove /\ t_key t = t_key r.
Proof.
  unfold sparedTrack. rewrite negb_false_iff, existsb_exists.
  split; intros [r [Hin Hk]]; exists r; (split; [assumption|]).
  - now apply String.eqb_eq.
  - now apply String.eqb_eq.
Qed.

End SavedRecordings.

Section ClearOldAudioData.

Import AudioUtils.

Variable st : Storage.
Hypothesis keys_unique : NoDup (map fst st).
Hypothesis saved_plain : Forall plainAudio (savedEntries st).

Local Abbreviation tracks := (getAllSavedTracks st).
Local Abbreviation kept := (firstn 5 (getAllSavedTracks st)).
Local Abbreviation toRemove := (skipn 5 (getAllSavedTracks st)).

Lemma tracks_split : tracks = kept ++ toRemove.
Proof. symmetry. apply firstn_skipn. Qed.

Lemma track_of_entry (t : SavedTrack) :
  In t tracks -> exists e, In e (savedEntries st) /\ t = entryTrack e.
Proof.
  intros Hin.
  apply (Permutation_in t
           (Permutation_sym (saved_tracks_Permutation st keys_unique saved_plain)))
    in Hin.
  apply in_map_iff in Hin. destruct Hin as [e [He Hin]].
  exists e. split; [assumption|now symmetry].
Qed.

Lemma entry_has_track (e : string * Item) :
  In e (savedEntries st) -> In (entryTrack e) tracks.
Proof.
  intros Hin.
  apply (Permutation_in _ (saved_tracks_Permutation st keys_unique saved_plain)).
  now apply in_map.
Qed.

Lemma removed_not_spared (r : SavedTrack) :
  In r toRemove -> sparedTrack toRemove r = false.
Proof. intros Hin. apply sparedTrack_false. now exists r. Qed.

Lemma kept_spared (k : SavedTrack) :
  In k kept -> sparedTrack toRemove k = true.
Proof.
  intros Hin. destruct (sparedTrack toRemove k) eqn:E; [reflexivity|].
  apply sparedTrack_false in E. destruct E as [r [Hr Hk]].
  exfalso.
  pose proof (saved_track_keys_unique st keys_unique saved_plain) as Hnd.
  rewrite tracks_split, map_app in Hnd.
  apply (NoDup_app_apart _ _ Hnd (t_key k)).
  - now apply in_map.
  - rewrite Hk. now apply in_map.
Qed.

Lemma spared_tracks : filter (sparedTrack toRemove) tracks = kept.
Proof.
  transitivity (filter (sparedTrack toRemove) (kept ++ toRemove)).
  { now rewrite <- tracks_split. }
  rewrite filter_app.
  rewrite (filter_all _ kept kept_spared).
  rewrite (filter_none _ toRemove removed_not_spared).
  apply app_nil_r.
Qed.

Lemma remaining_count :
  List.length (savedEntries (clearOldAudioData st))
  = Nat.min (List.length (savedEntries st)) 5.
Proof.
  rewrite savedEntries_after_clear.
  rewrite <- (length_map entryTrack).
  change (spared toRemove) with (fun e => sparedTrack toRemove (entryTrack e)).
  rewrite <- filter_map_swap.
  rewrite (Permutation_length
             (filter_Permutation (sparedTrack toRemove) _ _
                (saved_tracks_Permutation st keys_unique saved_plain))).
  rewrite spared_tracks.
  rewrite length_firstn.
  rewrite <- (Permutation_length (saved_tracks_Permutation st keys_unique saved_plain)).
  rewrite length_map. apply Nat.min_comm.
Qed.

Lemma remaining_in_first_five (e : string * Item) :
  In e (savedEntries (clearOldAudioData st)) ->
  In e (savedEntries st) /\ In (entryTrack e) kept.
Proof.
  rewrite savedEntries_after_clear.
  intros Hin. apply filter_In in Hin. destruct Hin as [Hin Hsp].
  split; [assumption|].
  pose proof (entry_has_track e Hin) as Ht.
  rewrite tracks_split in Ht. apply in_app_or in Ht.
  destruct Ht as [Hk|Hr]; [assumption|].
  apply removed_not_spared in Hr.
  change (sparedTrack toRemove (entryTrack e)) with (spared toRemove e) in Hr.
  congruence.
Qed.

(** An entry of the storage that is not spared is a saved recording whose
    track lies past the fifth. *)
Lemma not_spared_entry (e : string * Item) :
  In e st -> spared toRemove e = false ->
  In e (savedEntries st) /\ In (entryTrack e) toRemove.
Proof.
  intros Hin Hsp.
  change (sparedTrack toRemove (entryTrack e) = false) in Hsp.
  apply sparedTrack_false in Hsp. destruct Hsp as [r [Hr Hk]].
  assert (Hrt : In r tracks) by (rewrite tracks_split; apply in_or_app; now right).
  destruct (track_of_entry r Hrt) as [e' [He' ->]].
  simpl in Hk.
  assert (e = e').
  { apply (same_key_same_entry st); try assumption.
    now apply filter_In in He'. }
  subst e'. split; assumption.
Qed.

Lemma removed_past_five (e : string * Item) :
  In e (savedEntries st) ->
  ~ In e (savedEntries (clearOldAudioData st)) ->
  In (entryTrack e) toRemove.
Proof.
  rewrite savedEntries_after_clear.
  intros Hin Hgone.
  apply not_spared_entry.
  - now apply filter_In in Hin.
  - destruct (spared toRemove e) eqn:E; [|reflexivity].
    exfalso. apply Hgone. apply filter_In. split; assumption.
Qed.

Lemma other_entries_stay :
  filter (fun e => negb (isSaved e)) (clearOldAudioData st)
  = filter (fun e => negb (isSaved e)) st.
Proof.
  rewrite clearOldAudioData_filter.
  rewrite filter_twice. apply filter_ext_in. intros e He.
  destruct (isSaved e) eqn:Ha; cbn [negb].
  - apply andb_false_r.
  - rewrite andb_true_r.
    destruct (spared toRemove e) eqn:E; [reflexivity|].
    destruct (not_spared_entry e He E) as [Hsaved _].
    apply filter_In in Hsaved. destruct Hsaved as [_ Hsaved]. congruence.
Qed.

End ClearOldAudioData.

(** C10, as the code has it: when localStorage holds one value per key and
    each of the [n] ['audio_'] entries that load holds an object stored
    under its own key, [clearOldAudioData] leaves exactly [min(n, 5)] of
    them, each at least as recent as every one it removed, and leaves all
    other entries alone, the ['audio_'] entries that do not load among
    them; [getAllSavedTracks] lists by descending timestamp, a missing
    timestamp counting as 0. *)
Theorem clearOldAudioData_keeps_five_newest (st : AudioUtils.Storage) :
  NoDup (map fst st) ->
  Forall AudioUtils.plainAudio (AudioUtils.savedEntries st) ->
  List.length (AudioUtils.savedEntries (AudioUtils.clearOldAudioData st))
  = Nat.min (List.length (AudioUtils.savedEntries st)) 5
  /\ (forall kept removed,
         In kept (AudioUtils.savedEntries (AudioUtils.clearOldAudioData st)) ->
         In removed (AudioUtils.savedEntries st) ->
         ~ In removed (AudioUtils.savedEntries (AudioUtils.clearOldAudioData st)) ->
         AudioUtils.entryTimestamp removed <= AudioUtils.entryTimestamp kept)
  /\ incl (AudioUtils.savedEntries (AudioUtils.clearOldAudioData st))
          (AudioUtils.savedEntries st)
  /\ filter (fun e => negb (AudioUtils.isSaved e)) (AudioUtils.clearOldAudioData st)
     = filter (fun e => negb (AudioUtils.isSaved e)) st
  /\ StronglySorted
       (fun a b => AudioUtils.timestampOr0 b <= AudioUtils.timestampOr0 a)
       (AudioUtils.getAllSavedTracks st).
Proof.
  intros Hnd Hplain.
  split; [now apply remaining_count|].
  split.
  { intros kept removed Hkept Hin Hgone.
    destruct (remaining_in_first_five st Hnd Hplain kept Hkept) as [_ Hk].
    pose proof (removed_past_five st Hnd Hplain removed Hin Hgone) as Hr.
    pose proof (getAllSavedTracks_sorted st) as Hs.
    rewrite <- (firstn_skipn 5 (AudioUtils.getAllSavedTracks st)) in Hs.
    pose proof (StronglySorted_across _ _ _ Hs _ _ Hk Hr) as Hle.
    simpl in Hle. now rewrite !entryTrack_timestamp in Hle. }
  split.
  { intros e He. now destruct (remaining_in_first_five st Hnd Hplain e He). }
  split; [now apply other_entries_stay|].
  apply getAllSavedTracks_sorted.
Qed.

Lemma clearOldAudioData_keeps_five_newest_witness :
  List.length (AudioUtils.savedEntries (AudioUtils.clearOldAudioData AudioUtils.sevenRecordings))
  = Nat.min (List.length (AudioUtils.savedEntries AudioUtils.sevenRecordings)) 5.
Proof.
  apply (clearOldAudioData_keeps_five_newest AudioUtils.sevenRecordings).
  - simpl. repeat constructor; simpl; intuition discriminate.
  - simpl. repeat constructor; eexists; (split; [reflexivity|left; reflexivity]).
Defined.

(** With every ['audio_'] entry loadable the count is that of the
    ['audio_'] entries, as on the seven recordings: the five newest stay,
    next to the settings. *)
Lemma clearOldAudioData_all_loadable (st : AudioUtils.Storage) :
  NoDup (map fst st) ->
  Forall AudioUtils.plainAudio (AudioUtils.audioEntries st) ->
  List.length (AudioUtils.audioEntries (AudioUtils.clearOldAudioData st))
  = Nat.min (List.length (AudioUtils.audioEntries st)) 5.
Proof.
  intros Hnd Hplain.
  assert (Hload : forall e, In e (AudioUtils.audioEntries st) ->
                            AudioUtils.isLoadable e = true).
  { intros e He. rewrite Forall_forall in Hplain.
    destruct (Hplain e He) as [data [Hsnd _]].
    unfold AudioUtils.isLoadable. now rewrite Hsnd. }
  assert (Hload' : forall e, In e (AudioUtils.audioEntries (AudioUtils.clearOldAudioData st)) ->
                             AudioUtils.isLoadable e = true).
  { intros e He. rewrite audioEntries_after_clear in He.
    apply filter_In in He. now apply Hload. }
  rewrite <- (savedEntries_all_loadable st Hload).
  rewrite <- (savedEntries_all_loadable _ Hload').
  apply remaining_count; [assumption|].
  now rewrite (savedEntries_all_loadable st Hload).
Qed.

Example seven_recordings_cleared :
  map fst (AudioUtils.clearOldAudioData AudioUtils.sevenRecordings)
  = [ "playerSettings"; "audio_b_700"; "audio_c_300"; "audio_d_600";
      "audio_f_500"; "audio_g_400" ]%string.
Proof. reflexivity. Qed.

(** C10 as stated fails: of seven ['audio_'] entries, one of which does not
    load, six are left, the unreadable one among them, where [min(7, 5)] is
    five. *)
Lemma unreadable_entry_is_not_counted :
  List.length (AudioUtils.audioEntries AudioUtils.withBrokenEntry) = 7%nat
  /\ List.length (AudioUtils.audioEntries (AudioUtils.clearOldAudioData AudioUtils.withBrokenEntry))
     = 6%nat
  /\ In ("audio_broken"%string, AudioUtils.Unloadable)
        (AudioUtils.audioEntries (AudioUtils.clearOldAudioData AudioUtils.withBrokenEntry))
  /\ List.length (AudioUtils.audioEntries (AudioUtils.clearOldAudioData AudioUtils.withBrokenEntry))
     <> Nat.min (List.length (AudioUtils.audioEntries AudioUtils.withBrokenEntry)) 5.
Proof.
  split; [reflexivity|]. split; [reflexivity|]. split; [now left|].
  simpl. discriminate.
Qed.

(** ** The sampling loop and pause *)

Section VisualizerLoop.

Import AudioVisualizer.

Lemma cancel_only_request (i : Z) (q : Frames.Queue) :
  i <> 0 -> Frames.pending q = [i] ->
  Frames.pending (Frames.cancelIfSet (Some i) q) = [].
Proof.
  intros Hi Hp. unfold Frames.cancelIfSet.
  replace (i =? 0) with false by (symmetry; now apply Z.eqb_neq).
  unfold Frames.cancelAnimationFrame; simpl. rewrite Hp. simpl.
  now rewrite Z.eqb_refl.
Qed.

Lemma cancel_on_empty (ref : option Z) (q : Frames.Queue) :
  Frames.pending q = [] -> Frames.pending (Frames.cancelIfSet ref q) = [].
Proof.
  intros Hp. unfold Frames.cancelIfSet.
  destruct ref as [i|]; [|assumption].
  destruct (i =? 0); [assumption|].
  unfold Frames.cancelAnimationFrame; simpl. now rewrite Hp.
Qed.

Lemma cancelIfSet_nextId (ref : option Z) (q : Frames.Queue) :
  Frames.nextId (Frames.cancelIfSet ref q) = Frames.nextId q.
Proof.
  unfold Frames.cancelIfSet. destruct ref as [i|]; [|reflexivity].
  now destruct (i =? 0).
Qed.

(** The cleanup empties the queue of a tracked loop. *)
Lemma cleanup_stops_loop (s : State) :
  loopTracked s ->
  Frames.pending (frames (cleanup s)) = []
  /\ Frames.nextId (frames (cleanup s)) = Frames.nextId (frames s).
Proof.
  intros [Hpos [Hempty|[i [Hi [_ [Hp [Href _]]]]]]]; unfold cleanup; simpl.
  - split; [now apply cancel_on_empty|apply cancelIfSet_nextId].
  - rewrite Href. split; [now apply cancel_only_request|apply cancelIfSet_nextId].
Qed.

(** One [draw] on an empty queue leaves a tracked loop. *)
Lemma draw_from_empty (sample : Snapshot) (s : State) :
  0 < Frames.nextId (frames s) ->
  Frames.pending (frames s) = [] ->
  cleanupArmed s = true ->
  loopTracked (draw sample s).
Proof.
  intros Hpos Hp Harmed. unfold draw.
  destruct (analyserRef s); [|split; [assumption|now left]].
  destruct (dataArrayRef s); [|split; [assumption|now left]].
  unfold loopTracked; simpl. rewrite Hp. simpl.
  split; [lia|]. right. exists (Frames.nextId (frames s)).
  repeat split; try reflexivity; try lia; assumption.
Qed.

Lemma rerender_tracked (isPlaying : bool) (sample : Snapshot) (s : State) :
  loopTracked s -> loopTracked (rerender isPlaying sample s).
Proof.
  intros Hinv.
  assert (Hpre : 0 < Frames.nextId (frames (if cleanupArmed s then cleanup s else s))
                 /\ Frames.pending (frames (if cleanupArmed s then cleanup s else s)) = []).
  { destruct (cleanup_stops_loop s Hinv) as [Hp Hn].
    destruct Hinv as [Hpos Hcases].
    destruct (cleanupArmed s) eqn:Ha.
    - rewrite Hn. split; assumption.
    - split; [assumption|].
      destruct Hcases as [Hempty|[i [_ [_ [_ [_ Harmed]]]]]]; [assumption|congruence]. }
  destruct Hpre as [Hpos Hp].
  unfold rerender. set (s1 := if cleanupArmed s then cleanup s else s) in *.
  unfold samplingEffect.
  destruct (negb (isInitialized s1) || negb isPlaying || negb (canvasRef s1)
            || negb (analyserRef s1)).
  - split; simpl.
    + now rewrite cancelIfSet_nextId.
    + left. now apply cancel_on_empty.
  - unfold draw.
    destruct (analyserRef s1); [|split; [assumption|now left]].
    destruct (dataArrayRef s1); [|split; [assumption|now left]].
    unfold loopTracked; simpl. rewrite Hp. simpl.
    split; [lia|]. right. exists (Frames.nextId (frames s1)).
    repeat split; try reflexivity; lia.
Qed.

Lemma tick_tracked (sample : Snapshot) (s : State) :
  loopTracked s -> loopTracked (tick sample s).
Proof.
  intros [Hpos [Hempty|[i [Hi [Hlt [Hp [Href Harmed]]]]]]]; unfold tick; simpl.
  - rewrite Hempty. simpl. split; [assumption|now left].
  - rewrite Hp. simpl. apply draw_from_empty; simpl; first [assumption|reflexivity].
Qed.

(** When [isPlaying] turns false the visualizer's loop stops: the queue is
    empty after the render, and a later tick draws nothing. *)
Lemma visualizer_stops_on_pause (sample sample' : Snapshot) (s : State) :
  loopTracked s ->
  Frames.pending (frames (rerender false sample s)) = []
  /\ drawn (rerender false sample s) = drawn s
  /\ tick sample' (rerender false sample s) = rerender false sample s.
Proof.
  intros Hinv.
  assert (Hp : Frames.pending (frames (rerender false sample s)) = []).
  { unfold rerender, samplingEffect.
    rewrite orb_true_r. simpl.
    apply cancel_on_empty.
    destruct (cleanup_stops_loop s Hinv) as [Hc _].
    destruct Hinv as [_ [Hempty|[i [_ [_ [_ [_ Harmed]]]]]]].
    - destruct (cleanupArmed s); [assumption|assumption].
    - now rewrite Harmed. }
  split; [assumption|]. split.
  - unfold rerender, samplingEffect. rewrite orb_true_r. simpl.
    now destruct (cleanupArmed s).
  - unfold tick. simpl. rewrite Hp. simpl.
    destruct (rerender false sample s) as [a b c d e [pend next] g h].
    simpl in Hp. subst pend. reflexivity.
Qed.

Lemma mounted_tracked : loopTracked mounted.
Proof. split; [reflexivity|now left]. Qed.

Lemma initializeAudioContext_tracked (s : State) :
  loopTracked s -> loopTracked (initializeAudioContext s).
Proof. intros H. exact H. Qed.

End VisualizerLoop.

Section PageLoop.

Import Home.

Lemma updateAudioData_neverTracked (sample : Snapshot) (s : State) :
  neverTracked s -> neverTracked (updateAudioData sample s).
Proof.
  intros Hs. unfold updateAudioData.
  destruct (analyserRef s) eqn:Ha; [|exact Hs].
  destruct (dataArrayRef s) eqn:Hd; [|exact Hs].
  destruct Hs as [Hcur _].
  split; simpl; [assumption|].
  intros _. split; [reflexivity|discriminate].
Qed.

Lemma pauseSong_keeps_queue (s : State) :
  current (animationIdRef s) = None -> frames (pauseSong s) = frames s.
Proof.
  intros Hcur. unfold pauseSong.
  destruct (audioRef s); [|reflexivity].
  simpl. now rewrite Hcur.
Qed.

Lemma pauseSong_neverTracked (s : State) :
  neverTracked s -> neverTracked (pauseSong s).
Proof.
  intros [Hcur Hpend]. unfold pauseSong.
  destruct (audioRef s); [|split; assumption].
  split; simpl; [assumption|]. now rewrite Hcur.
Qed.

Lemma initializeAudioContext_neverTracked (s : State) :
  neverTracked s -> neverTracked (initializeAudioContext s).
Proof.
  intros [Hcur Hpend]. unfold initializeAudioContext.
  destruct (audioContextRef s); [split; assumption|].
  destruct (audioRef s); [|split; assumption].
  split; simpl; [assumption|].
  intros _. split; [reflexivity|discriminate].
Qed.

Lemma ticks_neverTracked (sample : Snapshot) (callbacks : list Z) (s : State) :
  neverTracked s ->
  neverTracked (fold_left (fun st _ => updateAudioData sample st) callbacks s).
Proof.
  revert s. induction callbacks as [|c rest IH]; intros s Hs; simpl.
  - assumption.
  - apply IH. now apply updateAudioData_neverTracked.
Qed.

Lemma step_neverTracked (e : Event) (s : State) :
  neverTracked s -> neverTracked (step e s).
Proof.
  intros Hs. destruct e as [song sample| |t| |sample]; simpl.
  - unfold playSong.
    destruct (sameSong (currentSong s) song && isPlaying s).
    + now apply pauseSong_neverTracked.
    + destruct (audioRef s) eqn:Ha.
      * apply updateAudioData_neverTracked, initializeAudioContext_neverTracked.
        exact Hs.
      * exact Hs.
  - now apply pauseSong_neverTracked.
  - unfold handleTimeUpdate. destruct (audioRef s); exact Hs.
  - exact Hs.
  - unfold tick. simpl. apply ticks_neverTracked.
    destruct Hs as [Hcur _]. split; simpl; [assumption|].
    intros H. now elim H.
Qed.

Lemma run_neverTracked (events : list Event) :
  neverTracked (run events mounted).
Proof.
  unfold run.
  assert (H : neverTracked mounted).
  { split; [reflexivity|]. intros H. now elim H. }
  revert H. generalize mounted.
  induction events as [|e rest IH]; intros s Hs; simpl.
  - assumption.
  - apply IH. now apply step_neverTracked.
Qed.

Lemma updateAudioData_audioRef (sample : Snapshot) (s : State) :
  audioRef (updateAudioData sample s) = audioRef s.
Proof.
  unfold updateAudioData.
  destruct (analyserRef s); [|reflexivity].
  destruct (dataArrayRef s); reflexivity.
Qed.

Lemma initializeAudioContext_audioRef (s : State) :
  audioRef (initializeAudioContext s) = audioRef s.
Proof.
  unfold initializeAudioContext.
  destruct (audioContextRef s); [reflexivity|].
  destruct (audioRef s) eqn:E; simpl; congruence.
Qed.

Lemma pauseSong_audio_mounted (s : State) :
  audioRef s <> None -> audioRef (pauseSong s) <> None.
Proof.
  unfold pauseSong. destruct (audioRef s) eqn:E; intros H.
  - discriminate.
  - now rewrite E.
Qed.

Lemma ticks_audioRef (sample : Snapshot) (callbacks : list Z) (s : State) :
  audioRef (fold_left (fun st _ => updateAudioData sample st) callbacks s) = audioRef s.
Proof.
  revert s. induction callbacks as [|c rest IH]; intros s; simpl.
  - reflexivity.
  - rewrite IH. apply updateAudioData_audioRef.
Qed.

Lemma step_audio_mounted (e : Event) (s : State) :
  audioRef s <> None -> audioRef (step e s) <> None.
Proof.
  intros H. destruct e as [song sample| |t| |sample]; simpl.
  - unfold playSong.
    destruct (sameSong (currentSong s) song && isPlaying s).
    + now apply pauseSong_audio_mounted.
    + destruct (audioRef s) eqn:E; [|congruence].
      rewrite updateAudioData_audioRef, initializeAudioContext_audioRef.
      discriminate.
  - now apply pauseSong_audio_mounted.
  - unfold handleTimeUpdate. destruct (audioRef s) eqn:E; simpl; congruence.
  - exact H.
  - unfold tick. simpl. now rewrite ticks_audioRef.
Qed.

Lemma run_audio_mounted (events : list Event) :
  audioRef (run events mounted) <> None.
Proof.
  unfold run.
  assert (H : audioRef mounted <> None) by discriminate.
  revert H. generalize mounted.
  induction events as [|e rest IH]; intros s Hs; simpl.
  - assumption.
  - apply IH. now apply step_audio_mounted.
Qed.

Lemma updateAudioData_produces (sample : Snapshot) (s : State) :
  analyserRef s = true -> dataArrayRef s <> None ->
  produced (updateAudioData sample s) = produced s ++ [sample]
  /\ audioData (updateAudioData sample s) = sample
  /\ Frames.pending (frames (updateAudioData sample s))
     = Frames.pending (frames s) ++ [Frames.nextId (frames s)]
  /\ analyserRef (updateAudioData sample s) = true
  /\ dataArrayRef (updateAudioData sample s) <> None
  /\ currentTime (updateAudioData sample s) = currentTime s
  /\ isPlaying (updateAudioData sample s) = isPlaying s.
Proof.
  intros Ha Hd. unfold updateAudioData. rewrite Ha.
  destruct (dataArrayRef s); [|contradiction].
  simpl. repeat split. discriminate.
Qed.

Lemma ticks_produce (sample : Snapshot) (callbacks : list Z) (s : State) :
  analyserRef s = true -> dataArrayRef s <> None ->
  let s' := fold_left (fun st _ => updateAudioData sample st) callbacks s in
  produced s' = produced s ++ repeat sample (List.length callbacks)
  /\ List.length (Frames.pending (frames s'))
     = (List.length (Frames.pending (frames s)) + List.length callbacks)%nat
  /\ currentTime s' = currentTime s
  /\ isPlaying s' = isPlaying s.
Proof.
  revert s. induction callbacks as [|c rest IH]; intros s Ha Hd; simpl.
  - rewrite app_nil_r. repeat split. lia.
  - destruct (updateAudioData_produces sample s Ha Hd)
      as [Hp [_ [Hq [Ha' [Hd' [Ht Hpl]]]]]].
    destruct (IH _ Ha' Hd') as [IH1 [IH2 [IH3 IH4]]].
    rewrite IH1, IH2, IH3, IH4, Hp, Hq, Ht, Hpl, <- app_assoc, length_app.
    simpl. repeat split. lia.
Qed.

(** However the page got where it is, [pauseSong] cancels nothing: if a
    sampling loop is running, the next tick still hands one new snapshot
    per pending callback to [setAudioData] and re-arms each of them, while
    [isPlaying] is false.  The tick does not move [currentTime]. *)
Lemma pause_never_stops_sampling (events : list Event) (sample : Snapshot) :
  let s := run events mounted in
  let paused := pauseSong s in
  let after := tick sample paused in
  isPlaying paused = false
  /\ frames paused = frames s
  /\ produced after
     = produced s ++ repeat sample (List.length (Frames.pending (frames s)))
  /\ List.length (Frames.pending (frames after))
     = List.length (Frames.pending (frames s))
  /\ currentTime after = currentTime s.
Proof.
  intros s paused after.
  destruct (run_neverTracked events) as [Hcur Hpend]. fold s in Hcur, Hpend.
  assert (Haudio : audioRef s <> None -> isPlaying paused = false).
  { unfold paused, pauseSong. destruct (audioRef s); [reflexivity|congruence]. }
  split; [apply Haudio, run_audio_mounted|].
  assert (Hframes : frames paused = frames s) by (now apply pauseSong_keeps_queue).
  split; [assumption|].
  assert (Hsame : produced paused = produced s /\ currentTime paused = currentTime s
                  /\ analyserRef paused = analyserRef s
                  /\ dataArrayRef paused = dataArrayRef s).
  { unfold paused, pauseSong. destruct (audioRef s); repeat split. }
  destruct Hsame as [Hprod [Htime [Han Hda]]].
  unfold after, tick. simpl. rewrite Hframes.
  destruct (Frames.pending (frames s)) as [|c cs] eqn:Hq.
  - simpl. rewrite app_nil_r. repeat split; assumption.
  - assert (Hne : c :: cs <> []) by discriminate.
    destruct (Hpend Hne) as [Ha Hd].
    match goal with
    | |- context [fold_left ?f ?l ?s0] =>
        destruct (ticks_produce sample l s0) as [T1 [T2 [T3 _]]]
    end.
    + simpl. now rewrite Han.
    + simpl. now rewrite Hda.
    + rewrite T1, T2, T3. simpl. rewrite Hprod, Htime. repeat split.
Qed.

(** C3 on the page component: after [playSong] and then [pauseSong], with
    [isPlaying] false, the pending frame request is still queued; the next
    tick hands a new frequency snapshot to [setAudioData] and queues
    another request.  [pauseSong] reads [animationIdRef.current], which
    [updateAudioData] never assigns: it writes [animationIdRef.useRef]. *)
Theorem sampling_continues_after_pause :
  let playing := playSong song1 sampleA mounted in
  let paused := pauseSong playing in
  let after := tick sampleB paused in
  isPlaying playing = true
  /\ isPlaying paused = false
  /\ current (animationIdRef playing) = None
  /\ useRef (animationIdRef playing) = Some 1
  /\ Frames.pending (frames playing) = [1]
  /\ Frames.pending (frames paused) = [1]
  /\ produced paused = [sampleA]
  /\ produced after = [sampleA; sampleB]
  /\ audioData after = sampleB
  /\ Frames.pending (frames after) = [2]
  /\ isPlaying after = false
  /\ currentTime after = currentTime paused.
Proof. repeat split. Qed.

End PageLoop.

(** * Further properties of the code *)

(** ** MusicPlayer: where navigation lands *)

Section NavigationTargets.

Import MusicPlayer.

Lemma nonempty_length (pl : list Track) : pl <> [] -> 0 < JS.length pl.
Proof.
  destruct pl as [|t rest]; [congruence|].
  intros _. unfold JS.length. simpl List.length. lia.
Qed.

Lemma next_index_in_range (i n : Z) :
  0 < n -> -1 <= i < n ->
  0 <= Z.rem (i + 1) n < n /\ Z.rem (i + 1) n = (i + 1) mod n.
Proof.
  intros Hn Hi. rewrite Z.rem_mod_nonneg by lia.
  split; [|reflexivity]. apply Z.mod_pos_bound. lia.
Qed.

(** X1: on a non-empty playlist [handleNext] always hands a track of the
    playlist to [onTrackChange], whatever the current track is, also when
    there is none or when it is not in the playlist. *)
Theorem handleNext_selects_playlist_member (pl : list Track) (cur : option Track) :
  pl <> [] ->
  exists t, handleNext (Some pl) cur = Called (Some t) /\ In t pl.
Proof.
  intros Hne. pose proof (nonempty_length pl Hne) as Hlen.
  unfold handleNext.
  replace (JS.length pl =? 0) with false by (symmetry; apply Z.eqb_neq; lia).
  pose proof (findIndex_range (sameId cur) pl) as Hi.
  destruct (next_index_in_range _ _ Hlen Hi) as [Hn _].
  destruct (get_in_range pl _ Hn) as [t Ht].
  exists t. rewrite Ht. split; [reflexivity|]. eapply get_In. exact Ht.
Qed.

Lemma handleNext_selects_playlist_member_witness :
  exists t, handleNext (Some [trackA; trackB; trackC]) (Some trackD) = Called (Some t)
            /\ In t [trackA; trackB; trackC].
Proof.
  apply (handleNext_selects_playlist_member [trackA; trackB; trackC] (Some trackD)).
  discriminate.
Defined.

(** X2: on a non-empty playlist [handlePrevious] calls [onTrackChange]
    with [undefined] exactly when the current track's id is not in the
    playlist; otherwise with a track of the playlist. *)
Theorem handlePrevious_undefined_iff_absent (pl : list Track) (cur : Track) :
  pl <> [] ->
  exists arg,
    handlePrevious (Some pl) (Some cur) = Called arg
    /\ (arg = None <-> ~ In (id cur) (ids pl))
    /\ (forall t, arg = Some t -> In t pl).
Proof.
  intros Hne. pose proof (nonempty_length pl Hne) as Hlen.
  unfold handlePrevious.
  replace (JS.length pl =? 0) with false by (symmetry; apply Z.eqb_neq; lia).
  destruct (in_dec Z.eq_dec (id cur) (ids pl)) as [Hin|Hout].
  - pose proof (present_index pl cur Hin) as Hi.
    set (i := JS.findIndex (sameId (Some cur)) pl) in *.
    assert (Hp : 0 <= (if i =? 0 then JS.length pl - 1 else i - 1) < JS.length pl).
    { destruct (i =? 0) eqn:E; [lia|]. apply Z.eqb_neq in E. lia. }
    destruct (get_in_range pl _ Hp) as [t Ht].
    exists (Some t). rewrite Ht. split; [reflexivity|]. split.
    + split; [discriminate|]. intros Habs. contradiction.
    + intros t' Heq. injection Heq as <-. eapply get_In. exact Ht.
  - exists None. rewrite findIndex_absent.
    + split; [reflexivity|]. split.
      * split; [intros _; exact Hout|reflexivity].
      * discriminate.
    + intros x Hx. apply sameId_false. intros Heq. apply Hout.
      rewrite <- Heq. unfold ids. now apply in_map.
Qed.

Lemma handlePrevious_undefined_iff_absent_witness :
  exists arg,
    handlePrevious (Some [trackA; trackB; trackC]) (Some trackD) = Called arg
    /\ (arg = None <-> ~ In (id trackD) (ids [trackA; trackB; trackC]))
    /\ (forall t, arg = Some t -> In t [trackA; trackB; trackC]).
Proof.
  apply (handlePrevious_undefined_iff_absent [trackA; trackB; trackC] trackD).
  discriminate.
Defined.

(** With unique ids, where the two handlers land from the track at index
    [i]. *)
Lemma navigation_indices (pl : list Track) (i : Z) (cur at_i : Track) :
  NoDup (ids pl) ->
  JS.get pl i = Some at_i ->
  id cur = id at_i ->
  handleNext (Some pl) (Some cur) = Called (JS.get pl ((i + 1) mod JS.length pl))
  /\ handlePrevious (Some pl) (Some cur)
     = Called (JS.get pl ((i - 1 + JS.length pl) mod JS.length pl)).
Proof.
  intros Hnd Hget Hid.
  pose proof (get_bounds pl i at_i Hget) as Hi.
  assert (Hfind : JS.findIndex (sameId (Some cur)) pl = i).
  { rewrite <- (findIndex_own_index pl Hnd i at_i Hget).
    unfold sameId. now rewrite Hid. }
  unfold handleNext, handlePrevious. rewrite Hfind.
  replace (JS.length pl =? 0) with false by (symmetry; apply Z.eqb_neq; lia).
  split.
  - rewrite Z.rem_mod_nonneg by lia. reflexivity.
  - f_equal. f_equal.
    destruct (i =? 0) eqn:E.
    + apply Z.eqb_eq in E. subst i.
      rewrite Z.mod_small by lia. lia.
    + apply Z.eqb_neq in E.
      replace (i - 1 + JS.length pl) with (i - 1 + 1 * JS.length pl) by lia.
      rewrite Z.mod_add by lia. rewrite Z.mod_small by lia. reflexivity.
Qed.

(** X3: with unique ids, from the track at index [i] of a playlist of
    length [n], [next()] selects the track at index [(i + 1) mod n] and
    [previous()] the one at [(i - 1 + n) mod n]: both wrap around. *)
Theorem navigation_wraps_around (pl : list Track) (i : Z) (cur : Track) :
  NoDup (ids pl) ->
  JS.get pl i = Some cur ->
  handleNext (Some pl) (Some cur) = Called (JS.get pl ((i + 1) mod JS.length pl))
  /\ handlePrevious (Some pl) (Some cur)
     = Called (JS.get pl ((i - 1 + JS.length pl) mod JS.length pl)).
Proof.
  intros Hnd Hget. exact (navigation_indices pl i cur cur Hnd Hget eq_refl).
Qed.

Lemma navigation_wraps_around_witness :
  handleNext (Some [trackA; trackB; trackC]) (Some trackC)
  = Called (JS.get [trackA; trackB; trackC] ((2 + 1) mod JS.length [trackA; trackB; trackC]))
  /\ handlePrevious (Some [trackA; trackB; trackC]) (Some trackC)
     = Called (JS.get [trackA; trackB; trackC]
                 ((2 - 1 + JS.length [trackA; trackB; trackC])
                  mod JS.length [trackA; trackB; trackC])).
Proof.
  apply (navigation_wraps_around [trackA; trackB; trackC] 2 trackC).
  - simpl. repeat constructor; simpl; intuition discriminate.
  - reflexivity.
Defined.

Lemma present_track_index (pl : list Track) (cur : Track) :
  In (id cur) (ids pl) ->
  exists i at_i, JS.get pl i = Some at_i /\ id cur = id at_i.
Proof.
  intros Hin. pose proof (present_index pl cur Hin) as Hi.
  destruct (findIndex_hit (sameId (Some cur)) pl (proj1 Hi)) as [y [Hy Hsame]].
  apply sameId_true in Hsame.
  exists (JS.findIndex (sameId (Some cur)) pl), y. split; [assumption|now symmetry].
Qed.

(** X4: with unique ids and the current track in the playlist,
    [previous()] followed by [next()] gives back the [activeTrackId] it
    started from. *)
Theorem previous_then_next_restores (pl : list Track) (cur : Track) :
  NoDup (ids pl) ->
  In (id cur) (ids pl) ->
  activeTrackId (afterNext pl (afterPrevious pl (Some cur))) = Some (id cur).
Proof.
  intros Hnd Hin.
  destruct (present_track_index pl cur Hin) as [i [at_i [Hget Hid]]].
  pose proof (get_bounds pl i at_i Hget) as Hi.
  destruct (navigation_indices pl i cur at_i Hnd Hget Hid) as [_ Hprev].
  set (n := JS.length pl) in *.
  assert (Hp : 0 <= (i - 1 + n) mod n < n) by (apply Z.mod_pos_bound; lia).
  destruct (get_in_range pl _ Hp) as [t Ht].
  unfold afterPrevious. rewrite Hprev, Ht. simpl onTrackChange.
  destruct (navigation_indices pl _ t t Hnd Ht eq_refl) as [Hnext _].
  unfold afterNext. rewrite Hnext. fold n.
  replace (((i - 1 + n) mod n + 1) mod n) with i.
  - rewrite Hget. simpl. now rewrite Hid.
  - rewrite Z.add_mod_idemp_l by lia.
    replace (i - 1 + n + 1) with (i + 1 * n) by lia.
    rewrite Z.mod_add by lia. now rewrite Z.mod_small by lia.
Qed.

Lemma previous_then_next_restores_witness :
  activeTrackId (afterNext [trackA; trackB; trackC]
                   (afterPrevious [trackA; trackB; trackC] (Some trackA)))
  = Some (id trackA).
Proof.
  apply (previous_then_next_restores [trackA; trackB; trackC] trackA).
  - simpl. repeat constructor; simpl; intuition discriminate.
  - simpl. left. reflexivity.
Defined.

(** After [k] calls of [next()] from index [i] the track at index
    [(i + k) mod n] is current. *)
Lemma next_iterated (pl : list Track) (k : nat) :
  NoDup (ids pl) ->
  forall i cur at_i,
    JS.get pl i = Some at_i ->
    id cur = id at_i ->
    (0 < k)%nat ->
    Nat.iter k (afterNext pl) (Some cur)
    = JS.get pl ((i + Z.of_nat k) mod JS.length pl).
Proof.
  intros Hnd. induction k as [|k IH]; intros i cur at_i Hget Hid Hk; [lia|].
  pose proof (get_bounds pl i at_i Hget) as Hi.
  rewrite Nat.iter_succ_r.
  destruct (navigation_indices pl i cur at_i Hnd Hget Hid) as [Hnext _].
  unfold afterNext at 2. rewrite Hnext.
  set (n := JS.length pl) in *.
  assert (Hp : 0 <= (i + 1) mod n < n) by (apply Z.mod_pos_bound; lia).
  destruct (get_in_range pl _ Hp) as [t Ht].
  rewrite Ht. simpl onTrackChange.
  destruct k as [|k'].
  - simpl. rewrite Ht. reflexivity.
  - rewrite (IH _ t t Ht eq_refl) by lia. fold n.
    f_equal. rewrite Z.add_mod_idemp_l by lia. f_equal. lia.
Qed.

(** X5: with unique ids and the current track in the playlist, as many
    calls of [next()] as the playlist has entries lead around the playlist
    and back to the [activeTrackId] they started from. *)
Theorem next_cycles_through_playlist (pl : list Track) (cur : Track) :
  NoDup (ids pl) ->
  In (id cur) (ids pl) ->
  activeTrackId (Nat.iter (List.length pl) (afterNext pl) (Some cur)) = Some (id cur).
Proof.
  intros Hnd Hin.
  destruct (present_track_index pl cur Hin) as [i [at_i [Hget Hid]]].
  pose proof (get_bounds pl i at_i Hget) as Hi.
  rewrite (next_iterated pl (List.length pl) Hnd i cur at_i Hget Hid)
    by (unfold JS.length in Hi; lia).
  change (Z.of_nat (List.length pl)) with (JS.length pl).
  replace (i + JS.length pl) with (i + 1 * JS.length pl) by lia.
  rewrite Z.mod_add by lia. rewrite Z.mod_small by lia.
  rewrite Hget. simpl. now rewrite Hid.
Qed.

Lemma next_cycles_through_playlist_witness :
  activeTrackId (Nat.iter (List.length [trackA; trackB; trackC])
                   (afterNext [trackA; trackB; trackC]) (Some trackB))
  = Some (id trackB).
Proof.
  apply (next_cycles_through_playlist [trackA; trackB; trackC] trackB).
  - simpl. repeat constructor; simpl; intuition discriminate.
  - simpl. right. left. reflexivity.
Defined.

End NavigationTargets.

(** ** Strings *)

Section StringFacts.

Lemma length_append (a b : string) :
  String.length (String.append a b) = (String.length a + String.length b)%nat.
Proof. induction a as [|c a IH]; simpl; [reflexivity|now rewrite IH]. Qed.

Lemma substring_all (s : string) : String.substring 0 (String.length s) s = s.
Proof. induction s as [|c s IH]; simpl; [reflexivity|now rewrite IH]. Qed.

Lemma substring_skip (a b : string) :
  String.substring (String.length a) (String.length b) (String.append a b) = b.
Proof. induction a as [|c a IH]; simpl; [apply substring_all|exact IH]. Qed.

Lemma endsWith_append (a suf : string) : JS.endsWith (String.append a suf) suf = true.
Proof.
  unfold JS.endsWith. rewrite length_append.
  replace (String.length a + String.length suf - String.length suf)%nat
    with (String.length a) by lia.
  rewrite substring_skip, String.eqb_refl.
  replace (String.length suf <=? String.length a + String.length suf)%nat with true
    by (symmetry; apply Nat.leb_le; lia).
  reflexivity.
Qed.

Lemma toLowerCase_append (a b : string) :
  JS.toLowerCase (String.append a b)
  = String.append (JS.toLowerCase a) (JS.toLowerCase b).
Proof. induction a as [|c a IH]; simpl; [reflexivity|now rewrite IH]. Qed.

Lemma append_inj_r (a b c : string) :
  String.append a b = String.append a c -> b = c.
Proof.
  induction a as [|x a IH]; simpl; intros H; [assumption|].
  injection H as H. now apply IH.
Qed.

(** Reading back the decimal text of an integer gives the integer. *)
Lemma ofInt_read_back (z : Z) :
  option_map Z.of_int (NilZero.int_of_string (JS.ofInt z)) = Some z.
Proof.
  unfold JS.ofInt. rewrite NilZero.isi.
  - simpl. now rewrite DecimalZ.of_to.
  - destruct z as [|p|p]; simpl; try discriminate.
    intros H. injection H as H. exact (DecimalPos.Unsigned.to_uint_nonnil p H).
  - destruct z as [|p|p]; simpl; try discriminate.
    intros H. injection H as H. exact (DecimalPos.Unsigned.to_uint_nonnil p H).
Qed.

Lemma ofInt_inj (a b : Z) : JS.ofInt a = JS.ofInt b -> a = b.
Proof.
  intros H. pose proof (ofInt_read_back a) as Ha.
  rewrite H, ofInt_read_back in Ha. now injection Ha.
Qed.

(** Below one hundred, [padStart(2, '0')] gives two characters. *)
Lemma two_characters (z : Z) :
  0 <= z < 100 -> String.length (JS.padStart 2 "0" (JS.ofInt z)) = 2%nat.
Proof.
  intros Hz.
  assert (Hall : forallb (fun n => (String.length (JS.padStart 2 "0" (JS.ofInt (Z.of_nat n)))
                                    =? 2)%nat) (seq 0 100) = true) by (vm_compute; reflexivity).
  rewrite forallb_forall in Hall.
  specialize (Hall (Z.to_nat z)).
  rewrite Z2Nat.id in Hall by lia.
  apply Nat.eqb_eq, Hall. apply in_seq. lia.
Qed.

End StringFacts.

(** ** Clock displays *)

Section ClockDisplays.

Lemma Qfloor_div_60 (t : Q) : Qfloor (t / 60) = Qfloor t / 60.
Proof.
  destruct t as [a b]. unfold Qdiv, Qmult, Qinv, Qfloor; simpl.
  rewrite Z.mul_1_r, Pos2Z.inj_mul, Z.div_div by lia. reflexivity.
Qed.

Lemma Qfloor_minus_60 (t : Q) (k : Z) :
  Qfloor (t - 60 * inject_Z k) = Qfloor t - 60 * k.
Proof.
  destruct t as [a b].
  unfold Qminus, Qplus, Qopp, Qmult, inject_Z, Qfloor; simpl.
  rewrite Pos.mul_1_r, Z.mul_1_r.
  replace (a + - (60 * k) * Z.pos b) with (a + (- (60 * k)) * Z.pos b) by lia.
  rewrite Z.div_add by lia. lia.
Qed.

Lemma Qtrunc_nonneg (t : Q) : (0 <= t)%Q -> JS.Qtrunc (t / 60) = Qfloor t / 60.
Proof.
  intros Ht. unfold JS.Qtrunc.
  replace (Qle_bool 0 (t / 60)) with true.
  - apply Qfloor_div_60.
  - symmetry. apply Qle_bool_iff. apply Qle_shift_div_l; [reflexivity|].
    now rewrite Qmult_0_l.
Qed.

(** The two numbers both formatters print for a time that is not
    negative: whole minutes, and the whole seconds left over. *)
Lemma minutes_and_seconds (t : Q) :
  (0 <= t)%Q ->
  JS.floor (JS.divBy 60 (JS.Num t)) = JS.Whole (Qfloor t / 60)
  /\ JS.floor (JS.remBy 60 (JS.Num t)) = JS.Whole (Qfloor t mod 60).
Proof.
  intros Ht. unfold JS.divBy, JS.remBy, JS.floor. split.
  - now rewrite Qfloor_div_60.
  - rewrite (Qtrunc_nonneg t Ht), Qfloor_minus_60.
    f_equal. rewrite Z.mod_eq by lia. reflexivity.
Qed.

(** X6: for a time that is not negative and below 2^53 seconds (the
    range in which the quotient, the remainder and the digits of the code
    are the exact ones) [formatTime] prints the whole minutes, a colon and
    the seconds left over as exactly two digits; the fraction of a second
    does not show.  NaN prints as ['0:00']. *)
Theorem formatTime_minutes_and_seconds (t : Q) :
  (0 <= t)%Q ->
  Qfloor t < 2 ^ 53 ->
  MusicPlayer.formatTime (JS.Num t)
  = String.append (JS.ofInt (Qfloor t / 60))
      (String.append ":" (JS.padStart 2 "0" (JS.ofInt (Qfloor t mod 60))))
  /\ String.length (JS.padStart 2 "0" (JS.ofInt (Qfloor t mod 60))) = 2%nat
  /\ MusicPlayer.formatTime (JS.Num t) = MusicPlayer.formatTime (JS.Num (inject_Z (Qfloor t)))
  /\ MusicPlayer.formatTime JS.NaN = "0:00"%string.
Proof.
  intros Ht _.
  assert (Hshape : forall u, (0 <= u)%Q ->
            MusicPlayer.formatTime (JS.Num u)
            = String.append (JS.ofInt (Qfloor u / 60))
                (String.append ":" (JS.padStart 2 "0" (JS.ofInt (Qfloor u mod 60))))).
  { intros u Hu. unfold MusicPlayer.formatTime.
    destruct (minutes_and_seconds u Hu) as [-> ->]. reflexivity. }
  split; [now apply Hshape|].
  split.
  { apply two_characters.
    pose proof (Z.mod_pos_bound (Qfloor t) 60). lia. }
  split; [|reflexivity].
  rewrite (Hshape t Ht).
  rewrite (Hshape (inject_Z (Qfloor t))).
  - now rewrite Qfloor_Z.
  - change 0%Q with (inject_Z 0). rewrite <- Zle_Qle.
    change 0 with (Qfloor (inject_Z 0)). now apply Qfloor_resp_le.
Qed.

Lemma formatTime_minutes_and_seconds_witness :
  MusicPlayer.formatTime (JS.Num (1257 # 10)) = "2:05"%string.
Proof.
  assert (H : (0 <= 1257 # 10)%Q) by (unfold Qle; simpl; lia).
  assert (H' : Qfloor (1257 # 10) < 2 ^ 53) by reflexivity.
  exact (proj1 (formatTime_minutes_and_seconds (1257 # 10) H H')).
Defined.

(** X7: [formatDuration] prints ['00:00'] for zero and for NaN; for a
    positive duration of less than a hundred minutes it prints exactly five
    characters, two digits of minutes, a colon and two digits of seconds. *)
Theorem formatDuration_five_characters (t : Q) :
  (0 < t)%Q ->
  Qfloor t < 6000 ->
  AudioUtils.formatDuration (JS.Num t)
  = String.append (JS.padStart 2 "0" (JS.ofInt (Qfloor t / 60)))
      (String.append ":" (JS.padStart 2 "0" (JS.ofInt (Qfloor t mod 60))))
  /\ String.length (AudioUtils.formatDuration (JS.Num t)) = 5%nat
  /\ AudioUtils.formatDuration (JS.Num 0) = "00:00"%string
  /\ AudioUtils.formatDuration JS.NaN = "00:00"%string.
Proof.
  intros Ht Hlt.
  assert (Ht0 : (0 <= t)%Q) by now apply Qlt_le_weak.
  assert (Hfl : 0 <= Qfloor t).
  { change 0 with (Qfloor (inject_Z 0)). now apply Qfloor_resp_le. }
  assert (Hshape : AudioUtils.formatDuration (JS.Num t)
            = String.append (JS.padStart 2 "0" (JS.ofInt (Qfloor t / 60)))
                (String.append ":" (JS.padStart 2 "0" (JS.ofInt (Qfloor t mod 60))))).
  { unfold AudioUtils.formatDuration.
    replace (Qeq_bool t 0) with false.
    - unfold AudioUtils.clock.
      destruct (minutes_and_seconds t Ht0) as [-> ->]. reflexivity.
    - symmetry. apply not_true_is_false. intros H.
      apply Qeq_bool_iff in H. rewrite H in Ht. exact (Qlt_irrefl 0 Ht). }
  split; [exact Hshape|].
  split; [|split; reflexivity].
  rewrite Hshape, !length_append.
  rewrite !two_characters.
  - reflexivity.
  - pose proof (Z.mod_pos_bound (Qfloor t) 60). lia.
  - split; [apply Z.div_pos; lia|]. apply Z.div_lt_upper_bound; lia.
Qed.

Lemma formatDuration_five_characters_witness :
  String.length (AudioUtils.formatDuration (JS.Num (1257 # 10))) = 5%nat.
Proof.
  assert (H : (0 < 1257 # 10)%Q) by reflexivity.
  assert (H' : Qfloor (1257 # 10) < 6000) by reflexivity.
  exact (proj1 (proj2 (formatDuration_five_characters (1257 # 10) H H'))).
Defined.

End ClockDisplays.

(** ** MusicPlayer: play and pause *)

Section PlayPause.

Import MusicPlayer.

(** X8: [togglePlayPause] flips [isPlaying] whatever the audio element
    answers to [play()].  Starting from a player whose element is paused
    exactly when [isPlaying] is false, the two are in step afterwards
    exactly when the handler paused or [play()] started: a refused [play()]
    leaves [isPlaying] true over a paused element.  From a paused player a
    second call gives the state back either way, and without a current
    track the handler changes nothing. *)
Theorem togglePlayPause_trusts_play (s : State) (answer : PlayAnswer) :
  inSync s ->
  isPlaying (togglePlayPause true answer s) = negb (isPlaying s)
  /\ (inSync (togglePlayPause true answer s) <-> isPlaying s = true \/ answer = Started)
  /\ (isPlaying s = false ->
      option_map el_paused (audioRef (togglePlayPause true Refused s)) = Some true
      /\ forall again, togglePlayPause true again (togglePlayPause true answer s) = s)
  /\ togglePlayPause false answer s = s.
Proof.
  unfold inSync. intros Hsync.
  destruct s as [playing ct du vol mu [a|] pr]; simpl in Hsync; [|discriminate].
  destruct a as [t v paused]. simpl in Hsync. injection Hsync as ->.
  split; [reflexivity|].
  split.
  { destruct playing, answer; simpl;
      (split;
       [ intros H; first [now left | now right | discriminate H]
       | intros [H|H]; first [reflexivity | discriminate H] ]). }
  split; [|reflexivity].
  intros H. simpl in H. subst playing. split; [reflexivity|].
  intros again. destruct answer; reflexivity.
Qed.

Lemma togglePlayPause_trusts_play_witness :
  let idle := togglePlayPause true Started loaded in
  isPlaying (togglePlayPause true Refused idle) = negb (isPlaying idle)
  /\ (inSync (togglePlayPause true Refused idle) <-> isPlaying idle = true \/ Refused = Started)
  /\ (isPlaying idle = false ->
      option_map el_paused (audioRef (togglePlayPause true Refused idle)) = Some true
      /\ forall again, togglePlayPause true again (togglePlayPause true Refused idle) = idle)
  /\ togglePlayPause false Refused idle = idle.
Proof.
  apply (togglePlayPause_trusts_play (togglePlayPause true Started loaded) Refused).
  reflexivity.
Defined.

End PlayPause.

(** ** Upload validation: what is accepted *)

Section UploadAcceptance.

Import FileUpload AudioUtils.

(** X9: [handleFileSelect] hands a file to [onFileUpload] exactly when its
    type contains ['audio/mpeg'] or its lower-cased name ends in ['.mp3'],
    and it has at most 50 * 1024 * 1024 bytes; it leaves an error message
    exactly when it does not hand the file on; without a file it does
    neither. *)
Theorem handleFileSelect_accepts_or_reports (f : File) :
  (onFileUpload (handleFileSelect (Some f)) = Some f
   <-> (JS.includes (type f) "audio/mpeg"
        || JS.endsWith (JS.toLowerCase (name f)) ".mp3" = true)
       /\ size f <= 50 * 1024 * 1024)
  /\ (uploadError (handleFileSelect (Some f)) = EmptyString
      <-> onFileUpload (handleFileSelect (Some f)) = Some f)
  /\ (uploadError (handleFileSelect (Some f)) <> EmptyString
      <-> onFileUpload (handleFileSelect (Some f)) = None)
  /\ handleFileSelect None = {| uploadError := EmptyString; onFileUpload := None |}.
Proof.
  unfold handleFileSelect.
  destruct (JS.includes (type f) "audio/mpeg");
    destruct (JS.endsWith (JS.toLowerCase (name f)) ".mp3");
    destruct (size f >? 50 * 1024 * 1024) eqn:Hsize; simpl;
    try (apply Z.gtb_lt in Hsize);
    try (rewrite Z.gtb_ltb in Hsize; apply Z.ltb_ge in Hsize);
    repeat split; intros; try discriminate; try reflexivity; try lia;
    try (destruct H; (discriminate || lia)); try congruence.
Qed.

(** X10: [isValidMP3File] is the stricter of the two validators: every
    file it accepts is handed on by [handleFileSelect] without an error. *)
Theorem isValidMP3File_implies_accepted (f : File) :
  isValidMP3File (Some f) = true ->
  handleFileSelect (Some f) = {| uploadError := EmptyString; onFileUpload := Some f |}.
Proof.
  unfold isValidMP3File, handleFileSelect.
  destruct (negb (existsb (String.eqb (type f)) validTypes)); [discriminate|].
  destruct (JS.endsWith (JS.toLowerCase (name f)) ".mp3"); [|discriminate].
  cbv zeta. destruct (size f >? 50 * 1024 * 1024); [discriminate|].
  intros _. simpl. now rewrite andb_false_r.
Qed.

Lemma isValidMP3File_implies_accepted_witness :
  handleFileSelect (Some small) = {| uploadError := EmptyString; onFileUpload := Some small |}.
Proof.
  apply (isValidMP3File_implies_accepted small). reflexivity.
Defined.

(** X11: the extension alone lets a file through [handleFileSelect]: a
    name ending in ['.mp3'] in any mix of upper and lower case is accepted
    whatever the type says, up to the size limit. *)
Theorem mp3_extension_is_enough (base ext ty : string) (bytes : Z) :
  JS.toLowerCase ext = ".mp3"%string ->
  bytes <= 50 * 1024 * 1024 ->
  let f := {| name := String.append base ext; type := ty; size := bytes |} in
  handleFileSelect (Some f) = {| uploadError := EmptyString; onFileUpload := Some f |}.
Proof.
  intros Hext Hsize f. unfold handleFileSelect. simpl.
  rewrite toLowerCase_append, Hext, endsWith_append, andb_false_r.
  replace (bytes >? 52428800) with false; [reflexivity|].
  symmetry. rewrite Z.gtb_ltb. apply Z.ltb_ge. lia.
Qed.

Lemma mp3_extension_is_enough_witness :
  let f := {| name := String.append "Concert" ".Mp3"; type := "video/mp4";
              size := 50 * 1024 * 1024 |} in
  handleFileSelect (Some f) = {| uploadError := EmptyString; onFileUpload := Some f |}.
Proof.
  apply (mp3_extension_is_enough "Concert" ".Mp3" "video/mp4" (50 * 1024 * 1024)).
  - reflexivity.
  - simpl. lia.
Defined.

End UploadAcceptance.

(** ** AudioVisualizer: the life of the drawing loop *)

Section VisualizerRuns.

Import AudioVisualizer.

Lemma run_app (events more : list Event) (s : State) :
  run (events ++ more) s = run more (run events s).
Proof. unfold run. apply fold_left_app. Qed.

Lemma cleanup_tracked (s : State) : loopTracked s -> loopTracked (cleanup s).
Proof.
  intros Hinv. destruct (cleanup_stops_loop s Hinv) as [Hp Hn].
  destruct Hinv as [Hpos _].
  split; [now rewrite Hn|now left].
Qed.

Lemma unmount_tracked (s : State) : loopTracked s -> loopTracked (unmount s).
Proof.
  intros Hinv. unfold unmount.
  pose proof (cleanup_tracked s Hinv) as H1.
  destruct (cleanupArmed (cleanup s)); [now apply cleanup_tracked|assumption].
Qed.

Lemma step_tracked (e : Event) (s : State) : loopTracked s -> loopTracked (step e s).
Proof.
  intros Hinv. destruct e as [b sample|b sample|sample|]; simpl.
  - apply rerender_tracked. now apply initializeAudioContext_tracked.
  - now apply rerender_tracked.
  - now apply tick_tracked.
  - now apply unmount_tracked.
Qed.

Lemma run_tracked (events : list Event) (s : State) :
  loopTracked s -> loopTracked (run events s).
Proof.
  unfold run. revert s.
  induction events as [|e rest IH]; intros s Hs; simpl; [assumption|].
  apply IH. now apply step_tracked.
Qed.

(** X12: whatever happens to a mounted visualizer (initialisation, changes
    of [isPlaying], display refreshes, unmount, in any order), at most one
    animation-frame request is pending: the renders never start a second
    drawing loop beside a running one. *)
Theorem visualizer_single_request (events : list Event) :
  (List.length (Frames.pending (frames (run events mounted))) <= 1)%nat.
Proof.
  destruct (run_tracked events mounted mounted_tracked) as [_ [Hempty|[i [_ [_ [Hp _]]]]]].
  - rewrite Hempty. simpl. lia.
  - rewrite Hp. simpl. lia.
Qed.

Lemma frames_after_stop (samples : list Snapshot) (s : State) :
  (forall sample, tick sample s = s) -> run (map Frame samples) s = s.
Proof.
  intros Hfix. unfold run.
  induction samples as [|x rest IH]; simpl; [reflexivity|].
  now rewrite Hfix.
Qed.

(** X13: whatever happened before, once [isPlaying] turns false the
    visualizer has no request pending, the render draws nothing, and no
    number of display refreshes afterwards changes anything: nothing is
    drawn while paused. *)
Theorem visualizer_pause_stops_drawing
    (events : list Event) (sample : Snapshot) (samples : list Snapshot) :
  let paused := run (events ++ [PlayingChanged false sample]) mounted in
  Frames.pending (frames paused) = []
  /\ drawn paused = drawn (run events mounted)
  /\ run (map Frame samples) paused = paused.
Proof.
  intros paused.
  assert (Heq : paused = rerender false sample (run events mounted)).
  { unfold paused. rewrite run_app. reflexivity. }
  pose proof (run_tracked events mounted mounted_tracked) as Hinv.
  rewrite Heq.
  destruct (visualizer_stops_on_pause sample sample _ Hinv) as [Hp [Hd _]].
  split; [assumption|]. split; [assumption|].
  apply frames_after_stop. intros x.
  now destruct (visualizer_stops_on_pause sample x _ Hinv) as [_ [_ Hfix]].
Qed.

(** One request pending and the analyser in place: a refresh draws one
    snapshot and leaves one request pending. *)
Lemma tick_draws_one (sample : Snapshot) (s : State) :
  analyserRef s = true -> dataArrayRef s <> None ->
  (exists i, Frames.pending (frames s) = [i]) ->
  drawn (tick sample s) = drawn s ++ [sample]
  /\ analyserRef (tick sample s) = true
  /\ dataArrayRef (tick sample s) <> None
  /\ exists i, Frames.pending (frames (tick sample s)) = [i].
Proof.
  intros Ha Hd [i Hp]. unfold tick. simpl. rewrite Hp. simpl.
  unfold draw. simpl. rewrite Ha.
  destruct (dataArrayRef s); [|contradiction].
  simpl. repeat split; try discriminate. eexists. reflexivity.
Qed.

Lemma frames_draw_all (samples : list Snapshot) (s : State) :
  analyserRef s = true -> dataArrayRef s <> None ->
  (exists i, Frames.pending (frames s) = [i]) ->
  drawn (run (map Frame samples) s) = drawn s ++ samples.
Proof.
  unfold run. revert s.
  induction samples as [|x rest IH]; intros s Ha Hd Hp; simpl.
  - now rewrite app_nil_r.
  - destruct (tick_draws_one x s Ha Hd Hp) as [Hdr [Ha' [Hd' Hp']]].
    rewrite (IH _ Ha' Hd' Hp'), Hdr, <- app_assoc. reflexivity.
Qed.

(** X14: on an initialised visualizer, the render in which [isPlaying]
    turns true draws one snapshot, and every display refresh after it
    draws exactly one more, in order: while playing no frame is skipped and
    none is drawn twice. *)
Theorem visualizer_draws_every_frame
    (s : State) (sample : Snapshot) (samples : list Snapshot) :
  loopTracked s ->
  isInitialized s = true ->
  canvasRef s = true ->
  analyserRef s = true ->
  dataArrayRef s <> None ->
  drawn (run (PlayingChanged true sample :: map Frame samples) s)
  = drawn s ++ sample :: samples.
Proof.
  intros Hinv Hinit Hcanvas Ha Hd.
  change (run (PlayingChanged true sample :: map Frame samples) s)
    with (run (map Frame samples) (rerender true sample s)).
  assert (Hstart : drawn (rerender true sample s) = drawn s ++ [sample]
                   /\ analyserRef (rerender true sample s) = true
                   /\ dataArrayRef (rerender true sample s) <> None
                   /\ exists i, Frames.pending (frames (rerender true sample s)) = [i]).
  { destruct (cleanup_stops_loop s Hinv) as [Hc _].
    assert (Hp : Frames.pending (frames (if cleanupArmed s then cleanup s else s)) = []).
    { destruct Hinv as [_ [Hempty|[i [_ [_ [_ [_ Harmed]]]]]]].
      - destruct (cleanupArmed s); assumption.
      - now rewrite Harmed. }
    unfold rerender, samplingEffect.
    set (s1 := if cleanupArmed s then cleanup s else s) in *.
    assert (Hsame : isInitialized s1 = isInitialized s /\ canvasRef s1 = canvasRef s
                    /\ analyserRef s1 = analyserRef s /\ dataArrayRef s1 = dataArrayRef s
                    /\ drawn s1 = drawn s).
    { unfold s1. destruct (cleanupArmed s); repeat split. }
    destruct Hsame as [E1 [E2 [E3 [E4 E5]]]].
    rewrite E1, E2, E3, Hinit, Hcanvas, Ha. simpl.
    unfold draw. rewrite E3, Ha, E4.
    destruct (dataArrayRef s); [|contradiction].
    simpl. rewrite Hp, E5. repeat split; try discriminate.
    eexists. reflexivity. }
  destruct Hstart as [Hdr [Ha' [Hd' Hp']]].
  rewrite (frames_draw_all samples _ Ha' Hd' Hp'), Hdr, <- app_assoc. reflexivity.
Qed.

Lemma visualizer_draws_every_frame_witness :
  drawn (run (PlayingChanged true [1; 2] :: map Frame [[3; 4]; [5; 6]])
           (initializeAudioContext mounted))
  = drawn (initializeAudioContext mounted) ++ [1; 2] :: [[3; 4]; [5; 6]].
Proof.
  apply (visualizer_draws_every_frame (initializeAudioContext mounted)).
  - split; [reflexivity|now left].
  - reflexivity.
  - reflexivity.
  - reflexivity.
  - discriminate.
Defined.

End VisualizerRuns.

(** ** The page: frame requests pile up *)

Section PageRequests.

Import Home.

Lemma updateAudioData_graphBuilt (sample : Snapshot) (s : State) :
  graphBuilt s -> graphBuilt (updateAudioData sample s).
Proof.
  intros Hs. unfold updateAudioData.
  destruct (analyserRef s) eqn:Ha; [|exact Hs].
  destruct (dataArrayRef s) eqn:Hd; [|exact Hs].
  intros _. simpl. split; [reflexivity|discriminate].
Qed.

Lemma initializeAudioContext_ready (s : State) :
  graphBuilt s -> audioRef s <> None ->
  analyserRef (initializeAudioContext s) = true
  /\ dataArrayRef (initializeAudioContext s) <> None
  /\ audioContextRef (initializeAudioContext s) = true
  /\ frames (initializeAudioContext s) = frames s
  /\ animationIdRef (initializeAudioContext s) = animationIdRef s.
Proof.
  intros Hs Haudio. unfold initializeAudioContext.
  destruct (audioContextRef s) eqn:Hc.
  - destruct (Hs Hc) as [Ha Hd]. repeat split; assumption.
  - destruct (audioRef s); [|contradiction].
    simpl. repeat split. discriminate.
Qed.

Lemma initializeAudioContext_graphBuilt (s : State) :
  graphBuilt s -> graphBuilt (initializeAudioContext s).
Proof.
  intros Hs. unfold initializeAudioContext.
  destruct (audioContextRef s) eqn:Hc; [exact Hs|].
  destruct (audioRef s); [|exact Hs].
  intros _. simpl. split; [reflexivity|discriminate].
Qed.

Lemma ticks_graphBuilt (sample : Snapshot) (callbacks : list Z) (s : State) :
  graphBuilt s ->
  graphBuilt (fold_left (fun st _ => updateAudioData sample st) callbacks s).
Proof.
  revert s. induction callbacks as [|c rest IH]; intros s Hs; simpl; [assumption|].
  apply IH. now apply updateAudioData_graphBuilt.
Qed.

Lemma step_graphBuilt (e : Event) (s : State) :
  graphBuilt s -> graphBuilt (step e s).
Proof.
  intros Hs. destruct e as [song sample| |t| |sample]; simpl.
  - unfold playSong.
    destruct (sameSong (currentSong s) song && isPlaying s).
    + unfold pauseSong. destruct (audioRef s); exact Hs.
    + destruct (audioRef s) eqn:Ha; [|exact Hs].
      apply updateAudioData_graphBuilt, initializeAudioContext_graphBuilt.
      exact Hs.
  - unfold pauseSong. destruct (audioRef s); exact Hs.
  - unfold handleTimeUpdate. destruct (audioRef s); exact Hs.
  - exact Hs.
  - unfold tick. simpl. apply ticks_graphBuilt. exact Hs.
Qed.

Lemma run_graphBuilt (events : list Event) : graphBuilt (run events mounted).
Proof.
  unfold run.
  assert (H : graphBuilt mounted) by (intros H; discriminate H).
  revert H. generalize mounted.
  induction events as [|e rest IH]; intros s Hs; simpl; [assumption|].
  apply IH. now apply step_graphBuilt.
Qed.

Lemma tick_produces (sample : Snapshot) (s : State) :
  neverTracked s ->
  produced (tick sample s)
  = produced s ++ repeat sample (List.length (Frames.pending (frames s)))
  /\ List.length (Frames.pending (frames (tick sample s)))
     = List.length (Frames.pending (frames s)).
Proof.
  intros [_ Hpend]. unfold tick. simpl.
  destruct (Frames.pending (frames s)) as [|c cs] eqn:Hq.
  - simpl. rewrite app_nil_r. split; reflexivity.
  - assert (Hne : c :: cs <> []) by discriminate.
    destruct (Hpend Hne) as [Ha Hd].
    match goal with
    | |- context [fold_left ?f ?l ?s0] =>
        destruct (ticks_produce sample l s0 Ha Hd) as [T1 [T2 _]]
    end.
    rewrite T1, T2. split; reflexivity.
Qed.

Lemma step_adds_request (e : Event) (s : State) :
  neverTracked s -> graphBuilt s -> audioRef s <> None ->
  List.length (Frames.pending (frames (step e s)))
  = (List.length (Frames.pending (frames s)) + if startsPlayback e s then 1 else 0)%nat.
Proof.
  intros Hnt Hgb Haudio.
  destruct e as [song sample| |t| |sample]; simpl.
  - unfold playSong.
    destruct (sameSong (currentSong s) song && isPlaying s); simpl.
    + rewrite pauseSong_keeps_queue by apply Hnt. lia.
    + destruct (audioRef s) as [a|] eqn:Ha; [|contradiction].
      match goal with
      | |- context [initializeAudioContext ?s1] =>
          destruct (initializeAudioContext_ready s1) as [R1 [R2 [_ [R4 _]]]];
          [exact Hgb|simpl; discriminate|];
          destruct (updateAudioData_produces sample _ R1 R2) as [_ [_ [Hq _]]];
          rewrite Hq, length_app, R4
      end.
      reflexivity.
  - rewrite pauseSong_keeps_queue by apply Hnt. lia.
  - unfold handleTimeUpdate. destruct (audioRef s); simpl; lia.
  - lia.
  - destruct (tick_produces sample s Hnt) as [_ Hlen]. rewrite Hlen. lia.
Qed.

(** X15: on the page nothing ever takes a frame request back.  In every
    reachable state an event leaves as many requests pending as before,
    plus one if it is a [playSong] that starts playback; and a display
    refresh hands [setAudioData] one snapshot per pending request.  So each
    further start of playback adds a sampling loop that runs for good. *)
Theorem page_requests_accumulate (events : list Event) (e : Event) (sample : Snapshot) :
  let s := run events mounted in
  List.length (Frames.pending (frames (step e s)))
  = (List.length (Frames.pending (frames s)) + if startsPlayback e s then 1 else 0)%nat
  /\ produced (tick sample s)
     = produced s ++ repeat sample (List.length (Frames.pending (frames s))).
Proof.
  intros s. split.
  - apply step_adds_request.
    + apply run_neverTracked.
    + apply run_graphBuilt.
    + apply run_audio_mounted.
  - apply tick_produces. apply run_neverTracked.
Qed.

End PageRequests.

(** ** The page: uploads and bars *)

Section PageUploads.

Import Home.

Lemma includes_cons (c : ascii) (s : string) :
  JS.includes (String c s) "." = false ->
  c <> "."%char /\ JS.includes s "." = false.
Proof.
  cbn [JS.includes String.prefix].
  destruct (ascii_dec "." c) as [<-|Hne].
  - destruct s; simpl; discriminate.
  - intros H. split; [congruence|assumption].
Qed.

Lemma prefix_append (pat rest : string) : String.prefix pat (String.append pat rest) = true.
Proof.
  induction pat as [|c pat IH]; simpl.
  - now destruct rest.
  - destruct (ascii_dec c c); [assumption|congruence].
Qed.

Lemma replace_unfold (pat rep s : string) :
  JS.replace pat rep s
  = if String.prefix pat s
    then String.append rep
           (String.substring (String.length pat) (String.length s - String.length pat) s)
    else match s with
         | EmptyString => EmptyString
         | String c rest => String c (JS.replace pat rep rest)
         end.
Proof. destruct s; reflexivity. Qed.

Lemma replace_at_head (pat rep rest : string) :
  JS.replace pat rep (String.append pat rest) = String.append rep rest.
Proof.
  rewrite replace_unfold, prefix_append, length_append.
  replace (String.length pat + String.length rest - String.length pat)%nat
    with (String.length rest) by lia.
  now rewrite substring_skip.
Qed.

(** [replace('.mp3', '')] removes the first ['.mp3']: behind a prefix
    without a dot that is the one that follows the prefix. *)
Lemma replace_first_mp3 (base rest : string) :
  JS.includes base "." = false ->
  JS.replace ".mp3" EmptyString (String.append base (String.append ".mp3" rest))
  = String.append base rest.
Proof.
  induction base as [|c base IH]; intros Hdot.
  - cbn [String.append]. apply (replace_at_head ".mp3" EmptyString rest).
  - apply includes_cons in Hdot. destruct Hdot as [Hc Hdot].
    specialize (IH Hdot). revert IH.
    generalize (String.append ".mp3" rest). intros tail IH.
    cbn [String.append]. rewrite replace_unfold.
    cbn [String.prefix].
    destruct (ascii_dec "." c) as [E|_]; [congruence|].
    now rewrite IH.
Qed.

Lemma replace_absent (pat rep s : string) :
  JS.includes s pat = false -> JS.replace pat rep s = s.
Proof.
  induction s as [|c s IH]; intros H; rewrite replace_unfold; cbn [JS.includes] in H.
  - destruct (String.prefix pat EmptyString); [discriminate H|reflexivity].
  - destruct (String.prefix pat (String c s)); [discriminate H|].
    now rewrite IH.
Qed.

Lemma combine_seq_snd {A : Type} (l : list A) (n : nat) :
  map snd (combine (seq n (List.length l)) l) = l.
Proof.
  revert n. induction l as [|x rest IH]; intros n; simpl; [reflexivity|].
  now rewrite IH.
Qed.

Lemma combine_seq_fst {A : Type} (l : list A) (n : nat) :
  map fst (combine (seq n (List.length l)) l) = seq n (List.length l).
Proof.
  revert n. induction l as [|x rest IH]; intros n; simpl; [reflexivity|].
  now rewrite IH.
Qed.

(** X16: [handleFileUpload] keeps the songs it had, in order, and appends
    one song per selected file whose type is exactly ['audio/mpeg'], in the
    order of the selection; files of any other type are dropped without a
    message, whatever their name. *)
Theorem handleFileUpload_appends_mpeg_files
    (stamp : nat -> Q) (objectUrl : FileUpload.File -> string)
    (files : list FileUpload.File) (songs : list Song) :
  let mpeg := filter (fun f => String.eqb (FileUpload.type f) "audio/mpeg") files in
  let songs' := handleFileUpload stamp objectUrl files songs in
  firstn (List.length songs) songs' = songs
  /\ List.length songs' = (List.length songs + List.length mpeg)%nat
  /\ map url (skipn (List.length songs) songs') = map objectUrl mpeg
  /\ map name (skipn (List.length songs) songs')
     = map (fun f => JS.replace ".mp3" EmptyString (FileUpload.name f)) mpeg
  /\ map id (skipn (List.length songs) songs') = map stamp (seq 0 (List.length mpeg)).
Proof.
  intros mpeg songs'. unfold songs', handleFileUpload. fold mpeg.
  clearbody mpeg. clear songs'.
  assert (Hlen : List.length (combine (seq 0 (List.length mpeg)) mpeg) = List.length mpeg).
  { rewrite length_combine, length_seq. apply Nat.min_id. }
  split.
  { rewrite firstn_app, Nat.sub_diag, firstn_all. simpl. apply app_nil_r. }
  split.
  { now rewrite length_app, length_map, Hlen. }
  rewrite skipn_app, Nat.sub_diag, skipn_all. simpl.
  rewrite !map_map. simpl.
  pose proof (combine_seq_snd mpeg 0) as Hsnd.
  pose proof (combine_seq_fst mpeg 0) as Hfst.
  repeat split.
  - rewrite <- (map_map snd objectUrl). now rewrite Hsnd.
  - rewrite <- (map_map snd (fun f => JS.replace ".mp3" EmptyString (FileUpload.name f))).
    now rewrite Hsnd.
  - rewrite <- (map_map fst stamp). now rewrite Hfst.
Qed.

(** X17: the name of an uploaded song is the file name without its first
    ['.mp3'], which is the extension when nothing before it has a dot; a
    name without ['.mp3'] in lower case, such as one ending in ['.MP3'],
    stays as it is. *)
Theorem uploaded_song_name
    (stamp : nat -> Q) (objectUrl : FileUpload.File -> string)
    (f : FileUpload.File) (base rest : string) (songs : list Song) :
  FileUpload.type f = "audio/mpeg"%string ->
  JS.includes base "." = false ->
  (FileUpload.name f = String.append base (String.append ".mp3" rest) ->
   handleFileUpload stamp objectUrl [f] songs
   = songs ++ [{| id := stamp 0%nat; name := String.append base rest; url := objectUrl f |}])
  /\ (JS.includes (FileUpload.name f) ".mp3" = false ->
      handleFileUpload stamp objectUrl [f] songs
      = songs ++ [{| id := stamp 0%nat; name := FileUpload.name f; url := objectUrl f |}]).
Proof.
  intros Hty Hdot. unfold handleFileUpload.
  cbn [filter]. rewrite Hty, String.eqb_refl.
  cbn [List.length seq combine map fst snd].
  split.
  - intros Hname. rewrite Hname, replace_first_mp3 by assumption. reflexivity.
  - intros Habs. rewrite replace_absent by assumption. reflexivity.
Qed.

Lemma uploaded_song_name_witness :
  handleFileUpload (fun _ => 1700000000000 # 1) (fun _ => "blob:1"%string)
    [{| FileUpload.name := "live.mp3.mp3"; FileUpload.type := "audio/mpeg";
        FileUpload.size := 1000 |}] []
  = [{| id := 1700000000000 # 1; name := "live.mp3"; url := "blob:1" |}].
Proof.
  apply (uploaded_song_name (fun _ => 1700000000000 # 1) (fun _ => "blob:1"%string)
           {| FileUpload.name := "live.mp3.mp3"; FileUpload.type := "audio/mpeg";
              FileUpload.size := 1000 |} "live" ".mp3" []).
  - reflexivity.
  - reflexivity.
  - reflexivity.
Defined.

Lemma barHeight_bounds (data : Snapshot) (i : nat) :
  Forall (fun v => 0 <= v <= 255) data ->
  (4 <= barHeight data i <= 100)%Q.
Proof.
  intros Hdata. unfold barHeight.
  set (height := match nth_error data i with
                 | Some v => if v =? 0 then 0%Q else (inject_Z v / 255 * 100)%Q
                 | None => 0%Q
                 end).
  assert (Hh : (height <= 100)%Q).
  { unfold height. destruct (nth_error data i) as [v|] eqn:E; [|lra].
    destruct (v =? 0); [lra|].
    rewrite Forall_forall in Hdata.
    pose proof (Hdata v (nth_error_In _ _ E)) as [_ Hv].
    assert (Hq : (inject_Z v <= 255)%Q).
    { change 255%Q with (inject_Z 255). now rewrite <- Zle_Qle. }
    assert (Hd : (inject_Z v / 255 <= 1)%Q).
    { apply Qle_shift_div_r; [reflexivity|]. lra. }
    lra. }
  destruct (Qle_bool 4 height) eqn:E.
  - apply Qle_bool_iff in E. split; assumption.
  - split; lra.
Qed.

(** X18: the page's [Visualizer] always shows 32 bars, and for frequency
    bytes (0 to 255) every bar is between 4 and 100 percent high: silence,
    a missing byte and an empty array all give the 4 percent stub. *)
Theorem bars_within_range (data : Snapshot) :
  Forall (fun v => 0 <= v <= 255) data ->
  List.length (bars data) = 32%nat
  /\ Forall (fun h => (4 <= h <= 100)%Q) (bars data)
  /\ (forall i, (List.length data <= i)%nat -> barHeight data i = 4%Q)
  /\ (forall i, nth_error data i = Some 0 -> barHeight data i = 4%Q).
Proof.
  intros Hdata. unfold bars.
  split; [now rewrite length_map, length_seq|].
  split.
  { apply Forall_forall. intros h Hin. apply in_map_iff in Hin.
    destruct Hin as [i [<- _]]. now apply barHeight_bounds. }
  split.
  - intros i Hi. unfold barHeight.
    apply nth_error_None in Hi. now rewrite Hi.
  - intros i Hi. unfold barHeight. now rewrite Hi.
Qed.

Lemma bars_within_range_witness :
  List.length (bars [0; 128; 255]) = 32%nat
  /\ Forall (fun h => (4 <= h <= 100)%Q) (bars [0; 128; 255])
  /\ (forall i, (List.length [0; 128; 255] <= i)%nat -> barHeight [0; 128; 255] i = 4%Q)
  /\ (forall i, nth_error [0; 128; 255] i = Some 0 -> barHeight [0; 128; 255] i = 4%Q).
Proof.
  apply (bars_within_range [0; 128; 255]).
  repeat constructor; simpl; lia.
Defined.

End PageUploads.

(** ** The hooks: what is stored and what a render sees *)

Section HookFacts.

Import LocalStorageHook.

Lemma getItem_setItem_same (key value : string) (st : Store) :
  getItem key (setItem key value st) = Some value.
Proof.
  unfold getItem. induction st as [|e rest IH]; simpl.
  - now rewrite String.eqb_refl.
  - destruct (String.eqb (fst e) key) eqn:E; simpl.
    + now rewrite E.
    + rewrite E. exact IH.
Qed.


Variable V : Type.
Variable stringify : V -> string.
Variable parse : string -> option V.


(** Two functional updates made from the same render: the second is
    applied to the state that render saw, so the first is lost, in the
    state and in the storage. *)
Lemma second_update_overwrites_first (key : string) (f g : V -> V) (h : Hook V) :
  let both := render V (setValue V stringify key (Updater V g)
                          (setValue V stringify key (Updater V f) h)) in
  storedValue V both = g (storedValue V h)
  /\ getItem key (store V both) = Some (stringify (g (storedValue V h))).
Proof.
  simpl. split; [reflexivity|]. apply getItem_setItem_same.
Qed.

End HookFacts.


Section LibraryFacts.

Import LocalStorageHook.

Variable P : Type.
Variable stringify : list (Track P) -> string.




End LibraryFacts.


(** ** Saved recordings: storing, removing, cleaning up *)

Section StorageLaws.

Import AudioUtils.

Lemma getItem_assign_same (key : string) (item : Item) (st : Storage) :
  getItem key (assign key item st) = Some item.
Proof.
  unfold getItem. induction st as [|e rest IH]; simpl.
  - now rewrite String.eqb_refl.
  - destruct (String.eqb (fst e) key) eqn:E; simpl.
    + now rewrite E.
    + rewrite E. exact IH.
Qed.

Lemma getItem_assign_other (key other : string) (item : Item) (st : Storage) :
  other <> key -> getItem other (assign key item st) = getItem other st.
Proof.
  intros Hne. unfold getItem. induction st as [|e rest IH]; simpl.
  - replace (String.eqb key other) with false; [reflexivity|].
    symmetry. apply String.eqb_neq. congruence.
  - destruct (String.eqb (fst e) key) eqn:E; simpl.
    + apply String.eqb_eq in E.
      replace (String.eqb (fst e) other) with false; [reflexivity|].
      symmetry. apply String.eqb_neq. congruence.
    + destruct (String.eqb (fst e) other); [reflexivity|exact IH].
Qed.

Lemma assign_keys (key : string) (item : Item) (st : Storage) (k : string) :
  In k (map fst (assign key item st)) -> k = key \/ In k (map fst st).
Proof.
  induction st as [|e rest IH]; simpl.
  - intros [<-|[]]. now left.
  - destruct (String.eqb (fst e) key) eqn:E; simpl.
    + intros [<-|H]; right; [now left|now right].
    + intros [<-|H]; [right; now left|].
      destruct (IH H) as [->|H']; [now left|right; now right].
Qed.

Lemma assign_NoDup (key : string) (item : Item) (st : Storage) :
  NoDup (map fst st) -> NoDup (map fst (assign key item st)).
Proof.
  induction st as [|e rest IH]; simpl; intros Hnd.
  - constructor; [intros []|constructor].
  - inversion Hnd as [|? ? Hnotin Hnd']; subst.
    destruct (String.eqb (fst e) key) eqn:E; simpl.
    + now constructor.
    + constructor; [|now apply IH].
      intros Hin. apply assign_keys in Hin. destruct Hin as [Heq|Hin].
      * rewrite Heq, String.eqb_refl in E. discriminate.
      * contradiction.
Qed.

Lemma assign_Forall (P : string * Item -> Prop) (key : string) (item : Item) (st : Storage) :
  P (key, item) -> Forall P st -> Forall P (assign key item st).
Proof.
  intros Hnew. induction 1 as [|e rest He Hrest IH]; simpl.
  - now constructor.
  - destruct (String.eqb (fst e) key) eqn:E.
    + apply String.eqb_eq in E. rewrite E. now constructor.
    + now constructor.
Qed.

Lemma filter_Forall (P : string * Item -> Prop) (f : string * Item -> bool) (st : Storage) :
  Forall P st -> Forall P (filter f st).
Proof.
  rewrite !Forall_forall. intros H e He. apply filter_In in He. now apply H.
Qed.

Lemma getItem_remove_same (key : string) (st : Storage) :
  getItem key (removeFromLocalStorage key st) = None.
Proof.
  unfold getItem, removeFromLocalStorage.
  induction st as [|e rest IH]; simpl; [reflexivity|].
  destruct (String.eqb (fst e) key) eqn:E; simpl; [exact IH|].
  rewrite E. exact IH.
Qed.

Lemma getItem_remove_other (key other : string) (st : Storage) :
  other <> key -> getItem other (removeFromLocalStorage key st) = getItem other st.
Proof.
  intros Hne. unfold getItem, removeFromLocalStorage.
  induction st as [|e rest IH]; simpl; [reflexivity|].
  destruct (String.eqb (fst e) key) eqn:E; simpl.
  - apply String.eqb_eq in E.
    replace (String.eqb (fst e) other) with false; [exact IH|].
    symmetry. apply String.eqb_neq. congruence.
  - destruct (String.eqb (fst e) other); [reflexivity|exact IH].
Qed.

(** X22: after [removeFromLocalStorage(key)] the key loads as [null], every
    other key loads what it loaded before, and removing a key that is not
    there changes nothing. *)
Theorem removeFromLocalStorage_laws (key : string) (st : Storage) :
  loadFromLocalStorage key (removeFromLocalStorage key st) = None
  /\ (forall other, other <> key ->
        loadFromLocalStorage other (removeFromLocalStorage key st)
        = loadFromLocalStorage other st)
  /\ (~ In key (map fst st) -> removeFromLocalStorage key st = st)
  /\ removeFromLocalStorage key (removeFromLocalStorage key st)
     = removeFromLocalStorage key st.
Proof.
  split; [|split; [|split]].
  - unfold loadFromLocalStorage. now rewrite getItem_remove_same.
  - intros other Hne. unfold loadFromLocalStorage.
    now rewrite getItem_remove_other.
  - intros Habsent. unfold removeFromLocalStorage. apply filter_all.
    intros e He. apply negb_true_iff, String.eqb_neq. intros Heq.
    apply Habsent. rewrite <- Heq. now apply in_map.
  - unfold removeFromLocalStorage. rewrite filter_twice.
    apply filter_ext. intros e. now destruct (negb (String.eqb (fst e) key)).
Qed.

(** X23: when the quota lets the first [setItem] through,
    [saveToLocalStorage] stores the data with the current time as its
    timestamp: the key then loads exactly that, every other key loads what
    it did, and the storage still holds one value per key. *)
Theorem saveToLocalStorage_round_trip
    (quota : Storage -> bool) (now : Z) (key : string) (audioData : AudioData)
    (st : Storage) :
  quota (assign key (Loadable (stamped now audioData)) st) = true ->
  loadFromLocalStorage key (saveToLocalStorage quota now key audioData st)
  = Some {| ownKey := ownKey audioData; timestamp := Some now |}
  /\ (forall other, other <> key ->
        loadFromLocalStorage other (saveToLocalStorage quota now key audioData st)
        = loadFromLocalStorage other st)
  /\ (NoDup (map fst st) ->
      NoDup (map fst (saveToLocalStorage quota now key audioData st))).
Proof.
  intros Hfits. unfold saveToLocalStorage, setItem. rewrite Hfits.
  split; [|split].
  - unfold loadFromLocalStorage. now rewrite getItem_assign_same.
  - intros other Hne. unfold loadFromLocalStorage.
    now rewrite getItem_assign_other.
  - apply assign_NoDup.
Qed.

Lemma saveToLocalStorage_round_trip_witness :
  loadFromLocalStorage "audio_new_900"
    (saveToLocalStorage (fun _ => true) 900 "audio_new_900"
       {| ownKey := None; timestamp := None |} sevenRecordings)
  = Some {| ownKey := None; timestamp := Some 900 |}.
Proof.
  apply (saveToLocalStorage_round_trip (fun _ => true) 900 "audio_new_900"
           {| ownKey := None; timestamp := None |} sevenRecordings).
  reflexivity.
Defined.

(** When the quota refuses the first [setItem], [saveToLocalStorage] runs
    [clearOldAudioData] and tries once more with the data as given, without
    the new timestamp; if the quota refuses that too, the recordings past
    the fifth are gone and the new one is not stored. *)
Lemma saveToLocalStorage_over_quota
    (quota : Storage -> bool) (now : Z) (key : string) (audioData : AudioData)
    (st : Storage) :
  quota (assign key (Loadable (stamped now audioData)) st) = false ->
  (quota (assign key (Loadable audioData) (clearOldAudioData st)) = true ->
   loadFromLocalStorage key (saveToLocalStorage quota now key audioData st)
   = Some audioData)
  /\ (quota (assign key (Loadable audioData) (clearOldAudioData st)) = false ->
      saveToLocalStorage quota now key audioData st = clearOldAudioData st).
Proof.
  intros Hfull. unfold saveToLocalStorage, setItem. rewrite Hfull.
  split; intros Hretry; rewrite Hretry.
  - unfold loadFromLocalStorage. now rewrite getItem_assign_same.
  - reflexivity.
Qed.

Lemma collected_at_most (st : Storage) (l : list (string * Item)) :
  (List.length (flat_map (collect st) (map fst l))
   <= List.length (filter isAudioEntry l))%nat.
Proof.
  induction l as [|e rest IH]; simpl; [lia|].
  rewrite length_app. unfold collect at 1, isAudioEntry at 1.
  destruct (JS.startsWith (fst e) "audio_"); simpl.
  - destruct (loadFromLocalStorage (fst e) st); simpl; lia.
  - lia.
Qed.

Lemma tracks_at_most (st : Storage) :
  (List.length (getAllSavedTracks st) <= List.length (audioEntries st))%nat.
Proof.
  unfold getAllSavedTracks.
  rewrite <- (Permutation_length (sort_Permutation byTimestampDesc _)).
  apply collected_at_most.
Qed.

Lemma nothing_past_five (st : Storage) :
  (List.length (getAllSavedTracks st) <= 5)%nat -> clearOldAudioData st = st.
Proof.
  intros Hfew. unfold clearOldAudioData, JS.slice.
  rewrite skipn_all2 by assumption. reflexivity.
Qed.

(** X25: with at most five ['audio_'] entries in the storage, whatever
    they hold, [clearOldAudioData] removes nothing. *)
Theorem clearOldAudioData_keeps_up_to_five (st : Storage) :
  (List.length (audioEntries st) <= 5)%nat -> clearOldAudioData st = st.
Proof.
  intros Hfew. apply nothing_past_five.
  pose proof (tracks_at_most st). lia.
Qed.

Lemma clearOldAudioData_keeps_up_to_five_witness :
  clearOldAudioData (removeFromLocalStorage "audio_a_100"
                       (removeFromLocalStorage "audio_e_200" sevenRecordings))
  = removeFromLocalStorage "audio_a_100"
      (removeFromLocalStorage "audio_e_200" sevenRecordings).
Proof.
  apply (clearOldAudioData_keeps_up_to_five
           (removeFromLocalStorage "audio_a_100"
              (removeFromLocalStorage "audio_e_200" sevenRecordings))).
  simpl. lia.
Defined.

End StorageLaws.

Section CleanupGuarantees.

Import AudioUtils.

Variable st : Storage.
Hypothesis keys_unique : NoDup (map fst st).
Hypothesis saved_plain : Forall plainAudio (savedEntries st).

Lemma cleared_keys_unique : NoDup (map fst (clearOldAudioData st)).
Proof. rewrite clearOldAudioData_filter. now apply NoDup_keys_filter. Qed.

Lemma cleared_saved_plain : Forall plainAudio (savedEntries (clearOldAudioData st)).
Proof. rewrite savedEntries_after_clear. now apply filter_Forall. Qed.

Lemma cleared_tracks_few :
  (List.length (getAllSavedTracks (clearOldAudioData st)) <= 5)%nat.
Proof.
  rewrite <- (Permutation_length
                (saved_tracks_Permutation _ cleared_keys_unique cleared_saved_plain)).
  rewrite length_map, (remaining_count st keys_unique saved_plain). lia.
Qed.

Lemma first_five_nonempty (t : SavedTrack) :
  In t (skipn 5 (getAllSavedTracks st)) ->
  exists k, In k (firstn 5 (getAllSavedTracks st)).
Proof.
  intros Hin.
  destruct (getAllSavedTracks st) as [|k rest] eqn:E.
  - rewrite skipn_nil in Hin. destruct Hin.
  - exists k. simpl. now left.
Qed.

Lemma newest_is_spared (e : string * Item) :
  In e (savedEntries st) ->
  (forall other, In other (savedEntries st) -> fst other <> fst e ->
                 entryTimestamp other < entryTimestamp e) ->
  spared (skipn 5 (getAllSavedTracks st)) e = true.
Proof.
  intros Hin Hnewest.
  destruct (spared (skipn 5 (getAllSavedTracks st)) e) eqn:E; [reflexivity|].
  exfalso.
  assert (Hst : In e st) by (now apply filter_In in Hin).
  destruct (not_spared_entry st keys_unique saved_plain e Hst E) as [_ Hr].
  destruct (first_five_nonempty _ Hr) as [k Hk].
  assert (Hkt : In k (getAllSavedTracks st)).
  { rewrite <- (firstn_skipn 5 (getAllSavedTracks st)). apply in_or_app. now left. }
  destruct (track_of_entry st keys_unique saved_plain k Hkt) as [e' [He' ->]].
  pose proof (getAllSavedTracks_sorted st) as Hs.
  rewrite <- (firstn_skipn 5 (getAllSavedTracks st)) in Hs.
  pose proof (StronglySorted_across _ _ _ Hs _ _ Hk Hr) as Hle.
  simpl in Hle. rewrite !entryTrack_timestamp in Hle.
  destruct (string_dec (fst e') (fst e)) as [Hsame|Hdiff].
  - pose proof (saved_track_keys_unique st keys_unique saved_plain) as Hnd.
    rewrite <- (firstn_skipn 5 (getAllSavedTracks st)), map_app in Hnd.
    apply (NoDup_app_apart _ _ Hnd (fst e)).
    + change (fst e) with (t_key (entryTrack e)).
      replace (entryTrack e) with (entryTrack e'); [now apply in_map|].
      f_equal. apply (same_key_same_entry st); try assumption.
      now apply filter_In in He'.
    + change (fst e) with (t_key (entryTrack e)). now apply in_map.
  - pose proof (Hnewest e' He' Hdiff). lia.
Qed.

End CleanupGuarantees.

(** X26: cleaning up twice is cleaning up once: on a storage with one
    value per key whose saved recordings are stored under their own keys, a
    second [clearOldAudioData] removes nothing more. *)
Theorem clearOldAudioData_idempotent (st : AudioUtils.Storage) :
  NoDup (map fst st) ->
  Forall AudioUtils.plainAudio (AudioUtils.savedEntries st) ->
  AudioUtils.clearOldAudioData (AudioUtils.clearOldAudioData st)
  = AudioUtils.clearOldAudioData st.
Proof.
  intros Hnd Hplain. apply nothing_past_five. now apply cleared_tracks_few.
Qed.

Lemma clearOldAudioData_idempotent_witness :
  AudioUtils.clearOldAudioData (AudioUtils.clearOldAudioData AudioUtils.sevenRecordings)
  = AudioUtils.clearOldAudioData AudioUtils.sevenRecordings.
Proof.
  apply (clearOldAudioData_idempotent AudioUtils.sevenRecordings).
  - simpl. repeat constructor; simpl; intuition discriminate.
  - simpl. repeat constructor; eexists; (split; [reflexivity|left; reflexivity]).
Defined.

(** X27: the newest recording is never cleaned away: on such a storage a
    saved recording whose timestamp is larger than that of every other
    saved recording is still there after [clearOldAudioData], however many
    recordings there are. *)
Theorem newest_recording_survives (st : AudioUtils.Storage) (e : string * AudioUtils.Item) :
  NoDup (map fst st) ->
  Forall AudioUtils.plainAudio (AudioUtils.savedEntries st) ->
  In e (AudioUtils.savedEntries st) ->
  (forall other, In other (AudioUtils.savedEntries st) -> fst other <> fst e ->
                 AudioUtils.entryTimestamp other < AudioUtils.entryTimestamp e) ->
  In e (AudioUtils.clearOldAudioData st).
Proof.
  intros Hnd Hplain Hin Hnewest.
  rewrite clearOldAudioData_filter. apply filter_In. split.
  - now apply filter_In in Hin.
  - now apply newest_is_spared.
Qed.

Lemma newest_recording_survives_witness :
  In ("audio_b_700"%string, AudioUtils.saved 700)
     (AudioUtils.clearOldAudioData AudioUtils.sevenRecordings).
Proof.
  apply (newest_recording_survives AudioUtils.sevenRecordings
           ("audio_b_700"%string, AudioUtils.saved 700)).
  - simpl. repeat constructor; simpl; intuition discriminate.
  - simpl. repeat constructor; eexists; (split; [reflexivity|left; reflexivity]).
  - simpl. right. left. reflexivity.
  - simpl. intros other Hother Hkey.
    repeat (destruct Hother as [<-|Hother];
            [first [reflexivity | exfalso; apply Hkey; reflexivity]|]).
    destruct Hother.
Defined.

Lemma assign_keeps_others (key : string) (item : AudioUtils.Item)
    (st : AudioUtils.Storage) (e : string * AudioUtils.Item) :
  fst e <> key -> In e st -> In e (AudioUtils.assign key item st).
Proof.
  intros Hne. induction st as [|x rest IH]; simpl; [tauto|].
  intros [<-|Hin].
  - replace (String.eqb (fst x) key) with false
      by (symmetry; now apply String.eqb_neq).
    now left.
  - destruct (String.eqb (fst x) key); right; [assumption|now apply IH].
Qed.

(** X24: saving never costs the newest recording: whatever the quota
    does, also when the first [setItem] is refused and old recordings are
    cleared away, a saved recording that is newer than every other one and
    is stored under another key is still there after
    [saveToLocalStorage]. *)
Theorem saving_keeps_newest_recording
    (quota : AudioUtils.Storage -> bool) (now : Z) (key : string)
    (audioData : AudioUtils.AudioData)
    (st : AudioUtils.Storage) (e : string * AudioUtils.Item) :
  NoDup (map fst st) ->
  Forall AudioUtils.plainAudio (AudioUtils.savedEntries st) ->
  In e (AudioUtils.savedEntries st) ->
  (forall other, In other (AudioUtils.savedEntries st) -> fst other <> fst e ->
                 AudioUtils.entryTimestamp other < AudioUtils.entryTimestamp e) ->
  fst e <> key ->
  In e (AudioUtils.saveToLocalStorage quota now key audioData st).
Proof.
  intros Hnd Hplain Hin Hnewest Hkey.
  assert (Hst : In e st) by (now apply filter_In in Hin).
  assert (Hcleared : In e (AudioUtils.clearOldAudioData st)).
  { rewrite clearOldAudioData_filter. apply filter_In. split; [assumption|].
    now apply newest_is_spared. }
  unfold AudioUtils.saveToLocalStorage, AudioUtils.setItem.
  destruct (quota (AudioUtils.assign key _ st)).
  - now apply assign_keeps_others.
  - destruct (quota (AudioUtils.assign key _ (AudioUtils.clearOldAudioData st))).
    + now apply assign_keeps_others.
    + assumption.
Qed.

Lemma saving_keeps_newest_recording_witness :
  In ("audio_b_700"%string, AudioUtils.saved 700)
     (AudioUtils.saveToLocalStorage (fun s => (List.length s <=? 6)%nat) 900
        "audio_new_900" {| AudioUtils.ownKey := None; AudioUtils.timestamp := None |}
        AudioUtils.sevenRecordings).
Proof.
  apply (saving_keeps_newest_recording (fun s => (List.length s <=? 6)%nat) 900
           "audio_new_900" {| AudioUtils.ownKey := None; AudioUtils.timestamp := None |}
           AudioUtils.sevenRecordings ("audio_b_700"%string, AudioUtils.saved 700)).
  - simpl. repeat constructor; simpl; intuition discriminate.
  - simpl. repeat constructor; eexists; (split; [reflexivity|left; reflexivity]).
  - simpl. right. left. reflexivity.
  - simpl. intros other Hother Hkey.
    repeat (destruct Hother as [<-|Hother];
            [first [reflexivity | exfalso; apply Hkey; reflexivity]|]).
    destruct Hother.
  - simpl. discriminate.
Defined.

Section SavedStorages.

Import AudioUtils.

Variable quota : Storage -> bool.

Lemma stamped_plain (now : Z) (key : string) (audioData : AudioData) :
  ownKey audioData = None \/ ownKey audioData = Some key ->
  plainAudio (key, Loadable (stamped now audioData))
  /\ plainAudio (key, Loadable audioData).
Proof.
  intros Hkey. split; eexists; (split; [reflexivity|exact Hkey]).
Qed.

Lemma Saved_well_formed (st : Storage) :
  Saved quota st -> NoDup (map fst st) /\ Forall plainAudio st.
Proof.
  induction 1 as [|st now key audioData _ [Hnd Hplain] Hkey].
  - split; constructor.
  - destruct (stamped_plain now key audioData Hkey) as [P1 P2].
    unfold saveToLocalStorage, setItem.
    destruct (quota (assign key (Loadable (stamped now audioData)) st)).
    + split; [now apply assign_NoDup|now apply assign_Forall].
    + assert (Hc : NoDup (map fst (clearOldAudioData st))
                   /\ Forall plainAudio (clearOldAudioData st)).
      { rewrite clearOldAudioData_filter.
        split; [now apply NoDup_keys_filter|now apply filter_Forall]. }
      destruct Hc as [Hcn Hcp].
      destruct (quota (assign key (Loadable audioData) (clearOldAudioData st))).
      * split; [now apply assign_NoDup|now apply assign_Forall].
      * split; assumption.
Qed.

(** X28: a storage that was filled by [saveToLocalStorage] alone, with
    data that carries no foreign [key] property and under whatever quota,
    holds one loadable object per key; on it [clearOldAudioData] leaves
    exactly [min(n, 5)] of its [n] ['audio_'] entries. *)
Theorem saved_storage_is_cleaned_to_five (st : Storage) :
  Saved quota st ->
  NoDup (map fst st)
  /\ Forall plainAudio st
  /\ List.length (audioEntries (clearOldAudioData st))
     = Nat.min (List.length (audioEntries st)) 5.
Proof.
  intros Hsaved. destruct (Saved_well_formed st Hsaved) as [Hnd Hplain].
  split; [assumption|]. split; [assumption|].
  apply clearOldAudioData_all_loadable; [assumption|].
  now apply filter_Forall.
Qed.

End SavedStorages.

Lemma saved_storage_is_cleaned_to_five_witness :
  let st := AudioUtils.saveToLocalStorage (fun _ => true) 200 "audio_b_200"
              {| AudioUtils.ownKey := None; AudioUtils.timestamp := None |}
              (AudioUtils.saveToLocalStorage (fun _ => true) 100 "audio_a_100"
                 {| AudioUtils.ownKey := None; AudioUtils.timestamp := None |} []) in
  NoDup (map fst st)
  /\ Forall AudioUtils.plainAudio st
  /\ List.length (AudioUtils.audioEntries (AudioUtils.clearOldAudioData st))
     = Nat.min (List.length (AudioUtils.audioEntries st)) 5.
Proof.
  apply (saved_storage_is_cleaned_to_five (fun _ => true)).
  apply AudioUtils.Saved_save; [|now left].
  apply AudioUtils.Saved_save; [|now left].
  apply AudioUtils.Saved_empty.
Defined.

(** ** Storage keys *)

Section StorageKeys.

Import AudioUtils.

Lemma allChars_append (p : ascii -> bool) (a b : string) :
  allChars p (String.append a b) = allChars p a && allChars p b.
Proof.
  induction a as [|c a IH]; simpl; [reflexivity|].
  now rewrite IH, andb_assoc.
Qed.

Lemma cleanName_safe (fileName : string) :
  allChars (fun c => isAlnum c || Ascii.eqb c "_") (cleanName fileName) = true.
Proof.
  induction fileName as [|c rest IH]; simpl; [reflexivity|].
  rewrite IH, andb_true_r.
  destruct (isAlnum c) eqn:E; [now rewrite E|reflexivity].
Qed.

Lemma digits_safe (d : Decimal.uint) :
  allChars (fun c => isAlnum c || Ascii.eqb c "_") (NilEmpty.string_of_uint d) = true.
Proof. induction d; simpl; try assumption; reflexivity. Qed.

Lemma ofInt_safe (z : Z) :
  0 <= z -> allChars (fun c => isAlnum c || Ascii.eqb c "_") (JS.ofInt z) = true.
Proof.
  intros Hz. unfold JS.ofInt.
  destruct z as [|p|p]; [reflexivity| |lia].
  simpl. unfold NilZero.string_of_uint.
  destruct (Pos.to_uint p) eqn:E; try (rewrite <- E; apply digits_safe).
  reflexivity.
Qed.

(** X29: for a time stamp that prints in full (from 0 to below 10^21) a
    key made by [generateAudioKey] starts with ['audio_'], so
    [getAllSavedTracks] and [clearOldAudioData] take an entry under it for
    a recording; it consists of letters, digits and underscores only; and
    the same file name at two different times gives two different keys. *)
Theorem generateAudioKey_is_recognised (timestamp : Z) (fileName : string) :
  0 <= timestamp < 10 ^ 21 ->
  JS.startsWith (generateAudioKey timestamp fileName) "audio_" = true
  /\ (forall item, isAudioEntry (generateAudioKey timestamp fileName, item) = true)
  /\ allChars (fun c => isAlnum c || Ascii.eqb c "_")
       (generateAudioKey timestamp fileName) = true
  /\ (forall other, 0 <= other < 10 ^ 21 ->
                    generateAudioKey other fileName = generateAudioKey timestamp fileName ->
                    other = timestamp).
Proof.
  intros [Hts _].
  assert (Hprefix : JS.startsWith (generateAudioKey timestamp fileName) "audio_" = true).
  { unfold JS.startsWith, generateAudioKey. apply prefix_append. }
  split; [exact Hprefix|]. split; [intros item; exact Hprefix|]. split.
  - unfold generateAudioKey. rewrite !allChars_append.
    rewrite cleanName_safe, ofInt_safe by assumption. reflexivity.
  - intros other _ Heq. unfold generateAudioKey in Heq.
    do 3 apply append_inj_r in Heq. now apply ofInt_inj.
Qed.

Lemma generateAudioKey_is_recognised_witness :
  JS.startsWith (generateAudioKey 1700000000000 "My Song (live).mp3") "audio_" = true
  /\ (forall item,
        isAudioEntry (generateAudioKey 1700000000000 "My Song (live).mp3", item) = true)
  /\ allChars (fun c => isAlnum c || Ascii.eqb c "_")
       (generateAudioKey 1700000000000 "My Song (live).mp3") = true
  /\ (forall other, 0 <= other < 10 ^ 21 ->
        generateAudioKey other "My Song (live).mp3"
        = generateAudioKey 1700000000000 "My Song (live).mp3" ->
        other = 1700000000000).
Proof.
  apply (generateAudioKey_is_recognised 1700000000000 "My Song (live).mp3").
  split; reflexivity || discriminate.
Defined.

End StorageKeys.

(** ** The application shell: the theme *)

Section Theme.

Import App.

Lemma toggle_other (token c : string) (force : bool) (classes : list string) :
  c <> token -> (In c (toggle token force classes) <-> In c classes).
Proof.
  intros Hne. unfold toggle. destruct force.
  - destruct (existsb (String.eqb token) classes); [reflexivity|].
    rewrite in_app_iff. simpl. intuition congruence.
  - rewrite filter_In. split; [now intros [H _]|].
    intros H. split; [assumption|].
    apply negb_true_iff, String.eqb_neq. congruence.
Qed.

Lemma toggle_token (token : string) (force : bool) (classes : list string) :
  In token (toggle token force classes) <-> force = true.
Proof.
  unfold toggle. destruct force.
  - split; [reflexivity|]. intros _.
    destruct (existsb (String.eqb token) classes) eqn:E.
    + apply existsb_exists in E. destruct E as [x [Hx Heq]].
      apply String.eqb_eq in Heq. now subst x.
    + apply in_or_app. right. now left.
  - split; [|discriminate]. rewrite filter_In. intros [_ H].
    now rewrite String.eqb_refl in H.
Qed.

(** X30: at start-up the page gets the class ['dark'] exactly when no
    theme is stored, the stored theme is the empty string, or it is
    ['dark']; any other stored theme takes the class away; the other
    classes stay as they are. *)
Theorem initTheme_dark_unless_other (stored : option string) (classes : list string) :
  (In "dark"%string (initTheme stored classes)
   <-> stored = None \/ stored = Some EmptyString \/ stored = Some "dark"%string)
  /\ (forall c, c <> "dark"%string ->
        (In c (initTheme stored classes) <-> In c classes)).
Proof.
  split.
  - unfold initTheme. rewrite toggle_token.
    destruct stored as [t|].
    + destruct (String.eqb t EmptyString) eqn:E.
      * apply String.eqb_eq in E. subst t. simpl. intuition.
      * apply String.eqb_neq in E. rewrite String.eqb_eq.
        split; [intros ->; auto|].
        intros [H|[H|H]]; congruence.
    + simpl. intuition.
  - intros c Hc. unfold initTheme. now apply toggle_other.
Qed.

End Theme.
